(** * SkipGram with negative sampling: model and loss (src/skipgram.py)

    A shallow embedding of the two modules of [src/skipgram.py]:
    [SkipGramNeg] (embedding lookup and noise sampling) and
    [NegativeSamplingLoss] (the negative-sampling objective).

    Conventions of the embedding.
    - A tensor is a shape together with its contiguous row-major storage,
      which is what [view] and [nn.Embedding] work on.
    - Floating-point entries are modelled by the real numbers they stand
      for: the development is about the mathematical function the code
      computes, rounding is not modelled.
    - Every library call that can raise is a function into [result]; the
      methods run in a monad [M] that threads the model object (Python's
      [self]), propagates library errors and carries the finite
      probability distribution of the random draws. *)

From Stdlib Require Import String List Arith ZArith Bool Lia Reals Lra.
Import ListNotations.

Set Implicit Arguments.

(** ** Tensors *)

Record tensor (A : Type) : Type := mkTensor {
  shape : list nat;
  data : list A
}.

Arguments mkTensor {A} shape data.

Definition numel_of (s : list nat) : nat := fold_right Nat.mul 1 s.

Definition numel {A} (t : tensor A) : nat := length (data t).

Definition wf_tensor {A} (t : tensor A) : Prop :=
  length (data t) = numel_of (shape t).

(** The [k]-th block of [sz] consecutive entries of a storage. *)
Definition chunk {A} (k sz : nat) (d : list A) : list A :=
  firstn sz (skipn (k * sz) d).

(** [tab n f] is the storage [f 0; ...; f (n-1)]. *)
Definition tab {A} (n : nat) (f : nat -> A) : list A := map f (seq 0 n).

Fixpoint zip_with {A B C} (f : A -> B -> C) (l1 : list A) (l2 : list B)
  : list C :=
  match l1, l2 with
  | a :: l1', b :: l2' => f a b :: zip_with f l1' l2'
  | _, _ => []
  end.

(** ** Library errors

    The code raises nothing itself; these are the exceptions of the
    numeric library that its calls can raise. *)

Inductive torch_error : Type :=
| IndexOutOfRange      (* embedding: index out of range in self *)
| DimOutOfRange        (* sum / squeeze / unsqueeze: dimension out of range *)
| ShapeMismatch        (* broadcasting, bmm, view: incompatible shapes *)
| InvalidSampleCount   (* multinomial: cannot sample n_sample <= 0 samples *)
| TooManyCategories    (* multinomial: number of categories cannot exceed 2^24 *)
| InvalidDistribution. (* multinomial: invalid multinomial distribution *)

Inductive result (A : Type) : Type :=
| Ok (a : A)
| Err (e : torch_error).

Arguments Ok {A} a.
Arguments Err {A} e.

Definition rbind {A B} (r : result A) (f : A -> result B) : result B :=
  match r with
  | Ok a => f a
  | Err e => Err e
  end.

Declare Scope result_scope.
Delimit Scope result_scope with result.
Notation "x <- c ;; k" := (rbind c (fun x => k))
  (at level 61, c at next level, right associativity) : result_scope.

(** The errors that report incompatible shapes or dimensions. *)
Definition is_shape_error (e : torch_error) : bool :=
  match e with
  | DimOutOfRange | ShapeMismatch => true
  | _ => false
  end.

Definition is_index_error (e : torch_error) : bool :=
  match e with
  | IndexOutOfRange => true
  | _ => false
  end.

Definition is_sampling_error (e : torch_error) : bool :=
  match e with
  | InvalidSampleCount | TooManyCategories | InvalidDistribution => true
  | _ => false
  end.

(** ** Real-valued tensor primitives *)

Open Scope R_scope.

Definition sum_list (l : list R) : R := fold_right Rplus 0 l.

Definition sigmoid (x : R) : R := 1 / (1 + exp (- x)).

(** The constant [1e-10] of lines 139-140. *)
Definition eps : R := / (10 ^ 10).

Definition tmap {A B} (f : A -> B) (t : tensor A) : tensor B :=
  mkTensor (shape t) (map f (data t)).

Definition torch_sigmoid (t : tensor R) : tensor R := tmap sigmoid t.
Definition torch_log (t : tensor R) : tensor R := tmap ln t.
Definition torch_neg (t : tensor R) : tensor R := tmap Ropp t.
Definition add_scalar (t : tensor R) (c : R) : tensor R :=
  tmap (fun x => x + c) t.

Close Scope R_scope.

(** *** Broadcasting

    Shapes are aligned on the right; two sizes are compatible when they
    are equal or one of them is 1. *)

Fixpoint broadcast_rev (s1 s2 : list nat) : option (list nat) :=
  match s1, s2 with
  | [], s => Some s
  | s, [] => Some s
  | a :: s1', b :: s2' =>
      match broadcast_rev s1' s2' with
      | None => None
      | Some s =>
          if a =? b then Some (a :: s)
          else if a =? 1 then Some (b :: s)
          else if b =? 1 then Some (a :: s)
          else None
      end
  end.

Definition broadcast_shapes (s1 s2 : list nat) : option (list nat) :=
  option_map (@rev nat) (broadcast_rev (rev s1) (rev s2)).

(** Pads a shape with leading 1s up to rank [r]. *)
Definition pad_shape (r : nat) (s : list nat) : list nat :=
  repeat 1 (r - length s) ++ s.

(** Expands a storage of shape [s] to shape [t] (same rank, every size of
    [s] equal to that of [t] or 1). *)
Fixpoint expand {A} (s t : list nat) (d : list A) : list A :=
  match s, t with
  | ds :: s', dt :: t' =>
      if ds =? dt
      then flat_map (fun k => expand s' t' (chunk k (numel_of s') d)) (seq 0 ds)
      else concat (repeat (expand s' t' d) dt)
  | _, _ => d
  end.

Definition broadcast_op (f : R -> R -> R) (a b : tensor R)
  : result (tensor R) :=
  match broadcast_shapes (shape a) (shape b) with
  | None => Err ShapeMismatch
  | Some s =>
      let r := length s in
      Ok (mkTensor s
            (zip_with f (expand (pad_shape r (shape a)) s (data a))
                        (expand (pad_shape r (shape b)) s (data b))))
  end.

(** [a * b] and [a + b] on tensors. *)
Definition torch_mul : tensor R -> tensor R -> result (tensor R) :=
  broadcast_op Rmult.
Definition torch_add : tensor R -> tensor R -> result (tensor R) :=
  broadcast_op Rplus.

(** *** Reductions, reshaping and batched products *)

(** Resolves a possibly negative dimension against [n] valid positions. *)
Definition normalize_dim (n : nat) (dim : Z) : result nat :=
  if ((- Z.of_nat n <=? dim) && (dim <? Z.of_nat n))%Z
  then Ok (Z.to_nat (if (dim <? 0)%Z then dim + Z.of_nat n else dim))
  else Err DimOutOfRange.

(** [torch.sum(t, dim)]: the entries along [dim] are added up and the
    dimension is removed. *)
Definition torch_sum (t : tensor R) (dim : Z) : result (tensor R) :=
  (k <- normalize_dim (Nat.max 1 (length (shape t))) dim ;;
   let pre := firstn k (shape t) in
   let d := nth k (shape t) 1 in
   let post := skipn (S k) (shape t) in
   let inner := numel_of post in
   Ok (mkTensor (pre ++ post)
         (flat_map
            (fun o => tab inner (fun j =>
               sum_list (tab d (fun i =>
                 nth ((o * d + i) * inner + j) (data t) 0%R))))
            (seq 0 (numel_of pre)))))%result.

(** [t.unsqueeze(dim)]: a dimension of size 1 is inserted at [dim]. *)
Definition unsqueeze {A} (t : tensor A) (dim : Z) : result (tensor A) :=
  (k <- normalize_dim (S (length (shape t))) dim ;;
   Ok (mkTensor (firstn k (shape t) ++ 1 :: skipn k (shape t)) (data t)))%result.

(** [t.squeeze(dim)]: the dimension [dim] is removed when its size is 1,
    the tensor is returned unchanged otherwise. *)
Definition squeeze {A} (t : tensor A) (dim : Z) : result (tensor A) :=
  (k <- normalize_dim (Nat.max 1 (length (shape t))) dim ;;
   match nth_error (shape t) k with
   | Some 1 => Ok (mkTensor (firstn k (shape t) ++ skipn (S k) (shape t)) (data t))
   | _ => Ok t
   end)%result.

(** [torch.bmm(a, b)]: [a] of shape (B, n, m) times [b] of shape (B, m, p),
    one matrix product per batch entry; nothing is broadcast. *)
Definition torch_bmm (a b : tensor R) : result (tensor R) :=
  match shape a, shape b with
  | [ba; n; m], [bb; m'; p] =>
      if (ba =? bb) && (m =? m')
      then Ok (mkTensor [ba; n; p]
             (flat_map (fun bi =>
                flat_map (fun i =>
                  tab p (fun j =>
                    sum_list (tab m (fun k =>
                      (nth ((bi * n + i) * m + k) (data a) 0
                       * nth ((bi * m + k) * p + j) (data b) 0)%R))))
                  (seq 0 n))
                (seq 0 ba)))
      else Err ShapeMismatch
  | _, _ => Err ShapeMismatch
  end.

(** [torch.mean(t)]: a 0-dimensional tensor. *)
Definition torch_mean (t : tensor R) : tensor R :=
  mkTensor [] [(sum_list (data t) / INR (length (data t)))%R].

(** [t.view(dims)]: the same storage under a new shape. One size may be
    [-1], it is then inferred from the number of entries. *)
Definition view_known (dims : list Z) : Z :=
  fold_right Z.mul 1%Z (filter (fun d => negb (d =? -1)%Z) dims).

Definition view {A} (t : tensor A) (dims : list Z) : result (tensor A) :=
  let n := Z.of_nat (length (data t)) in
  let p := view_known dims in
  if existsb (fun d => (d <? -1)%Z) dims then Err ShapeMismatch
  else
    match length (filter (fun d => (d =? -1)%Z) dims) with
    | 0 =>
        if (p =? n)%Z
        then Ok (mkTensor (map Z.to_nat dims) (data t))
        else Err ShapeMismatch
    | 1 =>
        if negb (p =? 0)%Z && (n mod p =? 0)%Z
        then Ok (mkTensor
                   (map (fun d => Z.to_nat (if (d =? -1)%Z then n / p else d)) dims)
                   (data t))
        else Err ShapeMismatch
    | _ => Err ShapeMismatch
    end.

(** ** Embedding tables *)

Record Embedding : Type := mkEmbedding {
  num_embeddings : nat;
  embedding_dim : nat;
  weight : tensor R;
  is_cuda : bool
}.

(** [nn.Embedding.__call__]: every index is replaced by its row of the
    table; an index outside the table raises. *)
Definition embedding (emb : Embedding) (input : tensor Z) : result (tensor R) :=
  if forallb (fun i => (0 <=? i)%Z && (i <? Z.of_nat (num_embeddings emb))%Z)
             (data input)
  then Ok (mkTensor (shape input ++ [embedding_dim emb])
             (flat_map (fun i => chunk (Z.to_nat i) (embedding_dim emb)
                                       (data (weight emb)))
                       (data input)))
  else Err IndexOutOfRange.

(** The row of word [i] in a table. *)
Definition row (emb : Embedding) (i : nat) : list R :=
  chunk i (embedding_dim emb) (data (weight emb)).

Definition wf_embedding (emb : Embedding) : Prop :=
  shape (weight emb) = [num_embeddings emb; embedding_dim emb]
  /\ wf_tensor (weight emb).

(** ** Finite probability distributions

    A random draw is modelled by the finite list of its outcomes, each with
    its probability. *)

Definition dist (A : Type) : Type := list (R * A).

Definition dret {A} (a : A) : dist A := [(1%R, a)].

Definition scale {A} (p : R) (d : dist A) : dist A :=
  map (fun qa => ((p * fst qa)%R, snd qa)) d.

Definition dbind {A B} (d : dist A) (f : A -> dist B) : dist B :=
  flat_map (fun pa => scale (fst pa) (f (snd pa))) d.

(** Probability of the event [P]. *)
Definition prob {A} (P : A -> bool) (d : dist A) : R :=
  sum_list (map (fun pa => if P (snd pa) then fst pa else 0%R) d).

(** One draw from the weights [w]: index [i] with probability
    [w_i / sum w]. *)
Definition categorical (w : list R) : dist nat :=
  tab (length w) (fun i => ((nth i w 0 / sum_list w)%R, i)).

(** [n] independent draws from the weights [w], in sampling order. *)
Fixpoint draws (w : list R) (n : nat) : dist (list nat) :=
  match n with
  | 0 => dret []
  | S k => dbind (categorical w) (fun i =>
           dbind (draws w k) (fun l => dret (i :: l)))
  end.

Definition valid_weights (w : list R) : bool :=
  forallb (fun x => if Rle_dec 0 x then true else false) w
  && (if Rlt_dec 0 (sum_list w) then true else false).

(** ** The monad of the methods

    A method runs on the object [self : S]; it ends in a library error or
    in a value, leaves an object behind, and its random draws make the
    outcome a distribution. *)

Definition M (S A : Type) : Type := S -> dist (result A * S).

Definition ret {S A} (a : A) : M S A := fun s => dret (Ok a, s).

Definition lift {S A} (r : result A) : M S A := fun s => dret (r, s).

Definition get {S} : M S S := fun s => dret (Ok s, s).

Definition sample {S A} (d : dist A) : M S A :=
  fun s => map (fun pa => (fst pa, (Ok (snd pa), s))) d.

Definition bind {S A B} (m : M S A) (f : A -> M S B) : M S B :=
  fun s => dbind (m s) (fun o =>
    match fst o with
    | Ok a => f a (snd o)
    | Err e => dret (Err e, snd o)
    end).

Declare Scope monad_scope.
Delimit Scope monad_scope with monad.
Notation "x <- c ;; k" := (bind c (fun x => k))
  (at level 61, c at next level, right associativity) : monad_scope.

(** The largest number of categories the sampler accepts, 2^24. *)
Definition max_categories : Z := 16777216.

Definition too_many_categories (w : list R) : bool :=
  (max_categories <? Z.of_nat (length w))%Z.

(** [torch.multinomial(w, num_samples, replacement=True)] on a
    1-dimensional weight tensor. The sampler refuses, in this order, a
    number of samples that is not positive, more than 2^24 categories, and
    weights that are not a distribution. *)
Definition torch_multinomial_replacement {S} (w : list R) (num_samples : Z)
  : M S (tensor Z) :=
  if (num_samples <=? 0)%Z then lift (Err InvalidSampleCount)
  else if too_many_categories w then lift (Err TooManyCategories)
  else if negb (valid_weights w) then lift (Err InvalidDistribution)
  else (l <- sample (draws w (Z.to_nat num_samples)) ;;
        ret (mkTensor [Z.to_nat num_samples] (map Z.of_nat l)))%monad.

(** [torch.ones(n)]. *)
Definition torch_ones (n : nat) : list R := repeat 1%R n.

(** [t.to(device)]: the entries are those of [t]. *)
Definition tensor_to {A} (t : tensor A) (device : string) : tensor A := t.

(** ** SkipGramNeg (lines 5-92) *)

Record SkipGramNeg : Type := mkSkipGramNeg {
  n_vocab : nat;
  n_embed : nat;
  noise_dist : option (list R);
  in_embed : Embedding;
  out_embed : Embedding
}.

(** [__init__] (lines 20-39). The entries [w_in], [w_out] stand for the
    values that [uniform_(-1, 1)] leaves in the two tables. *)
Definition SkipGramNeg_init (n_vocab n_embed : nat)
    (noise_dist : option (list R)) (w_in w_out : list R) (cuda : bool)
  : SkipGramNeg :=
  mkSkipGramNeg n_vocab n_embed noise_dist
    (mkEmbedding n_vocab n_embed (mkTensor [n_vocab; n_embed] w_in) cuda)
    (mkEmbedding n_vocab n_embed (mkTensor [n_vocab; n_embed] w_out) cuda).

(** What [__init__] establishes. *)
Definition wf_model (self : SkipGramNeg) : Prop :=
  num_embeddings (in_embed self) = n_vocab self
  /\ embedding_dim (in_embed self) = n_embed self
  /\ wf_embedding (in_embed self)
  /\ num_embeddings (out_embed self) = n_vocab self
  /\ embedding_dim (out_embed self) = n_embed self
  /\ wf_embedding (out_embed self).

Open Scope monad_scope.

(** Lines 41-52. *)
Definition forward_input (input_words : tensor Z) : M SkipGramNeg (tensor R) :=
  self <- get ;;
  input_vectors <- lift (embedding (in_embed self) input_words) ;;
  ret input_vectors.

(** Lines 54-65. *)
Definition forward_output (output_words : tensor Z) : M SkipGramNeg (tensor R) :=
  self <- get ;;
  output_vectors <- lift (embedding (out_embed self) output_words) ;;
  ret output_vectors.

(** Lines 77-87 of [forward_noise]: the sampled noise words. *)
Definition forward_noise_words (batch_size n_samples : Z)
  : M SkipGramNeg (tensor Z) :=
  self <- get ;;
  let noise_dist :=
    match noise_dist self with
    | None => torch_ones (n_vocab self)
    | Some d => d
    end in
  noise_words <- torch_multinomial_replacement noise_dist
                   (batch_size * n_samples) ;;
  let device := if is_cuda (out_embed self) then "cuda"%string else "cpu"%string in
  let noise_words := tensor_to noise_words device in
  ret noise_words.

(** Lines 67-92. *)
Definition forward_noise (batch_size n_samples : Z)
  : M SkipGramNeg (tensor R) :=
  noise_words <- forward_noise_words batch_size n_samples ;;
  self <- get ;;
  looked_up <- lift (embedding (out_embed self) noise_words) ;;
  noise_vectors <- lift (view looked_up
                           [batch_size; n_samples; Z.of_nat (n_embed self)]) ;;
  ret noise_vectors.

Close Scope monad_scope.

(** ** NegativeSamplingLoss (lines 95-143) *)

Open Scope result_scope.

(** Line 133. *)
Definition pos_scores (input_vectors output_vectors : tensor R)
  : result (tensor R) :=
  prod <- torch_mul input_vectors output_vectors ;;
  torch_sum prod 1.

(** Line 136. *)
Definition neg_scores (input_vectors noise_vectors : tensor R)
  : result (tensor R) :=
  col <- unsqueeze input_vectors 2 ;;
  prods <- torch_bmm noise_vectors col ;;
  squeeze prods 2.

(** Line 139. *)
Definition pos_loss (pos_scores : tensor R) : tensor R :=
  torch_log (add_scalar (torch_sigmoid pos_scores) eps).

(** Line 140. *)
Definition neg_loss (neg_scores : tensor R) : result (tensor R) :=
  torch_sum (torch_log (add_scalar (torch_sigmoid (torch_neg neg_scores)) eps)) 1.

(** Lines 133-143, as a computation that can raise. *)
Definition loss_of (input_vectors output_vectors noise_vectors : tensor R)
  : result (tensor R) :=
  ps <- pos_scores input_vectors output_vectors ;;
  ns <- neg_scores input_vectors noise_vectors ;;
  let pl := pos_loss ps in
  nl <- neg_loss ns ;;
  total <- torch_add pl nl ;;
  Ok (torch_neg (torch_mean total)).

Close Scope result_scope.

(** Lines 109-143. The module has no attribute of its own; [S] is whatever
    object the call runs on. *)
Definition forward {S} (input_vectors output_vectors noise_vectors : tensor R)
  : M S (tensor R) :=
  lift (loss_of input_vectors output_vectors noise_vectors).

(** * Definitions used in the statements *)

(** ** The closed form of the objective

    These definitions follow the mathematical statement of the
    negative-sampling loss, entry by entry; they are compared with the
    tensor program [loss_of]. *)

Open Scope R_scope.

(** [rsum n f] is [f 0 + ... + f (n-1)]. *)
Fixpoint rsum (n : nat) (f : nat -> R) : R :=
  match n with
  | O => 0
  | S k => rsum k f + f k
  end.

(** Entry [b][e] of a tensor of shape (_, E). *)
Definition at2 (E : nat) (t : tensor R) (b e : nat) : R :=
  nth (b * E + e) (data t) 0.

(** Entry [b][s][e] of a tensor of shape (_, n, E). *)
Definition at3 (n E : nat) (t : tensor R) (b s e : nat) : R :=
  nth ((b * n + s) * E + e) (data t) 0.

Definition dot (E : nat) (u v : nat -> R) : R :=
  rsum E (fun e => u e * v e).

(** What batch entry [b] contributes. *)
Definition closed_form_term (n E : nat) (iv ov nv : tensor R) (b : nat) : R :=
  ln (sigmoid (dot E (at2 E iv b) (at2 E ov b)) + eps)
  + rsum n (fun s => ln (sigmoid (- dot E (at3 n E nv b s) (at2 E iv b)) + eps)).

Definition closed_form_loss (B n E : nat) (iv ov nv : tensor R) : R :=
  - (rsum B (closed_form_term n E iv ov nv) / INR B).

Close Scope R_scope.

(** ** Frames, events and error sets *)

(** A computation is read-only when every outcome leaves the object it ran
    on as it was. *)
Definition read_only {S A} (m : M S A) : Prop :=
  forall s, Forall (fun o => snd (snd o) = s) (m s).

(** The weights [forward_noise] samples from (lines 77-81). *)
Definition noise_weights (self : SkipGramNeg) : list R :=
  match noise_dist self with
  | None => torch_ones (n_vocab self)
  | Some d => d
  end.

(** The event "the draws were exactly [ws]". *)
Definition same_draws (ws : list nat) (l : list nat) : bool :=
  if list_eq_dec Nat.eq_dec l ws then true else false.

(** Probability of the sequence [ws] under independent draws from [w]. *)
Definition seq_prob (w : list R) (ws : list nat) : R :=
  fold_right (fun i acc => (nth i w 0 / sum_list w * acc)%R) 1%R ws.

(** Lines 90-92 on given noise words. *)
Definition noise_vectors_of (self : SkipGramNeg) (batch_size n_samples : Z)
    (noise_words : tensor Z) : result (tensor R) :=
  rbind (embedding (out_embed self) noise_words)
        (fun looked_up =>
           view looked_up [batch_size; n_samples; Z.of_nat (n_embed self)]).

(** Every failing outcome carries an error accepted by [allowed]. *)
Definition fails_only {S A} (allowed : torch_error -> bool)
    (d : dist (result A * S)) : Prop :=
  Forall (fun o => match fst (snd o) with
                   | Ok _ => True
                   | Err e => allowed e = true
                   end) d.

(** There is an outcome, and every outcome is a value. *)
Definition succeeds {S A} (d : dist (result A * S)) : Prop :=
  d <> [] /\ Forall (fun o => match fst (snd o) with
                              | Ok _ => True
                              | Err _ => False
                              end) d.

(** The errors [forward_noise] can end in, with the arguments that cause
    the two sampling errors. *)
Definition noise_error_allowed (self : SkipGramNeg) (batch_size n_samples : Z)
    (e : torch_error) : bool :=
  match e with
  | InvalidSampleCount => (batch_size * n_samples <=? 0)%Z
  | TooManyCategories =>
      (0 <? batch_size * n_samples)%Z
      && too_many_categories (noise_weights self)
  | InvalidDistribution =>
      (0 <? batch_size * n_samples)%Z
      && negb (too_many_categories (noise_weights self))
      && negb (valid_weights (noise_weights self))
  | IndexOutOfRange | ShapeMismatch =>
      (0 <? batch_size * n_samples)%Z
      && negb (too_many_categories (noise_weights self))
      && valid_weights (noise_weights self)
  | DimOutOfRange => false
  end.

Definition example_model : SkipGramNeg :=
  SkipGramNeg_init 2 2 (Some [1%R; 3%R])
    [1%R; 2%R; 3%R; 4%R] [5%R; 6%R; 7%R; 8%R] false.

Definition example_model_uniform : SkipGramNeg :=
  SkipGramNeg_init 2 2 None
    [1%R; 2%R; 3%R; 4%R] [5%R; 6%R; 7%R; 8%R] false.

(** A model whose noise distribution gives every word the weight 0. *)
Definition zero_noise_model : SkipGramNeg :=
  SkipGramNeg_init 2 2 (Some [0%R; 0%R])
    [1%R; 2%R; 3%R; 4%R] [5%R; 6%R; 7%R; 8%R] false.

Definition example_input : tensor R := mkTensor [2; 2] [1%R; 2%R; 3%R; 4%R].
Definition example_output : tensor R := mkTensor [2; 2] [5%R; 6%R; 7%R; 8%R].
Definition example_noise : tensor R :=
  mkTensor [2; 1; 2] [5%R; 6%R; 5%R; 6%R].
Definition example_words : tensor Z := mkTensor [2] [1%Z; 0%Z].

(** ** Further events and objects

    Used by the properties that follow the claims. *)

(** The event "entry [k] of a sequence of draws is the index [i]". *)
Definition draw_is (k i : nat) (l : list nat) : bool :=
  match nth_error l k with
  | Some j => j =? i
  | None => false
  end.

(** The event "the call returned noise vectors whose vector number [k] is
    the row of word [i] in the output table". *)
Definition slice_is_row (self : SkipGramNeg) (k i : nat)
    (o : result (tensor R) * SkipGramNeg) : bool :=
  match fst o with
  | Ok t =>
      if list_eq_dec Req_dec_T (chunk k (n_embed self) (data t))
                     (row (out_embed self) i)
      then true else false
  | Err _ => false
  end.

(** The event "the call failed with an index out of range". *)
Definition index_failure {S A} (o : result A * S) : bool :=
  match fst o with
  | Ok _ => false
  | Err e => is_index_error e
  end.

(** The same model holding another noise distribution. *)
Definition with_noise_dist (self : SkipGramNeg) (nd : option (list R))
  : SkipGramNeg :=
  mkSkipGramNeg (n_vocab self) (n_embed self) nd (in_embed self) (out_embed self).

(** What a call shows to its caller: probability and result, without the
    object left behind. *)
Definition visible {S A} (d : dist (result A * S)) : list (R * result A) :=
  map (fun o => (fst o, fst (snd o))) d.

(** Two sizes that broadcasting cannot reconcile. *)
Definition incompatible (a b : nat) : Prop := a <> b /\ a <> 1 /\ b <> 1.

(** The dot product of two rows of length [E]. *)
Definition row_dot (E : nat) (r1 r2 : list R) : R :=
  dot E (fun e => nth e r1 0%R) (fun e => nth e r2 0%R).

(** The skip-gram objective with negative sampling written on the two
    embedding tables: input words [ws], context words [cs], and the noise
    words [l], [n] of them per input word. *)
Definition sg_term (self : SkipGramNeg) (n : nat) (ws cs : list Z)
    (l : list nat) (b : nat) : R :=
  (ln (sigmoid (row_dot (n_embed self)
                  (row (in_embed self) (Z.to_nat (nth b ws 0%Z)))
                  (row (out_embed self) (Z.to_nat (nth b cs 0%Z)))) + eps)
   + rsum n (fun k =>
       ln (sigmoid (- row_dot (n_embed self)
                        (row (out_embed self) (nth (b * n + k)%nat l 0%nat))
                        (row (in_embed self) (Z.to_nat (nth b ws 0%Z)))) + eps)))%R.

Definition sg_objective (self : SkipGramNeg) (B n : nat) (ws cs : list Z)
    (l : list nat) : R :=
  (- (rsum B (sg_term self n ws cs l) / INR B))%R.

(** A vocabulary of 2^24 + 1 words. *)
Definition large_vocab : nat := Z.to_nat 16777217.

(** A model over that vocabulary built without a noise distribution. *)
Definition large_vocab_model : SkipGramNeg :=
  SkipGramNeg_init large_vocab 1 None
    (repeat 0%R (large_vocab * 1)) (repeat 0%R (large_vocab * 1)) false.

(** A model over that vocabulary whose noise distribution gives every word
    the weight 1. *)
Definition large_noise_model : SkipGramNeg :=
  SkipGramNeg_init large_vocab 1 (Some (repeat 1%R large_vocab))
    (repeat 0%R (large_vocab * 1)) (repeat 0%R (large_vocab * 1)) false.

(** A model whose noise distribution has one entry more than the
    vocabulary. *)
Definition long_noise_model : SkipGramNeg :=
  SkipGramNeg_init 2 2 (Some [1%R; 1%R; 2%R])
    [1%R; 2%R; 3%R; 4%R] [5%R; 6%R; 7%R; 8%R] false.

Definition example_single_output : tensor R := mkTensor [1; 2] [5%R; 6%R].

(** A model whose noise distribution gives the word 1 the weight 0. *)
Definition sparse_noise_model : SkipGramNeg :=
  SkipGramNeg_init 2 2 (Some [1%R; 0%R])
    [1%R; 2%R; 3%R; 4%R] [5%R; 6%R; 7%R; 8%R] false.

(** * Facts about storages *)

Section Storage.
Context {A : Type}.

Lemma tab_length (n : nat) (f : nat -> A) : length (tab n f) = n.
Proof. unfold tab. now rewrite length_map, length_seq. Qed.

Lemma nth_tab (n i : nat) (f : nat -> A) (d : A) :
  i < n -> nth i (tab n f) d = f i.
Proof.
  intros Hi. unfold tab.
  rewrite (nth_indep _ d (f 0)) by now rewrite length_map, length_seq.
  rewrite map_nth, seq_nth by assumption. reflexivity.
Qed.

Lemma tab_ext (n : nat) (f g : nat -> A) :
  (forall i, i < n -> f i = g i) -> tab n f = tab n g.
Proof.
  intros H. unfold tab. apply map_ext_in.
  intros i Hi. apply in_seq in Hi. apply H. lia.
Qed.

Lemma tab_nth (l : list A) (d : A) :
  tab (length l) (fun i => nth i l d) = l.
Proof.
  apply (nth_ext _ _ d d).
  - apply tab_length.
  - intros i Hi. rewrite tab_length in Hi. now apply nth_tab.
Qed.

Lemma flat_map_ext_seq {B : Type} (f g : nat -> list B) (a n : nat) :
  (forall k, a <= k < a + n -> f k = g k) ->
  flat_map f (seq a n) = flat_map g (seq a n).
Proof.
  revert a. induction n as [|n IH]; intros a H; simpl; [reflexivity|].
  rewrite (H a) by lia. f_equal. apply IH. intros k Hk. apply H. lia.
Qed.

Lemma flat_map_blocks_length {B : Type} (g : B -> list A) (n : nat) (l : list B) :
  (forall x, In x l -> length (g x) = n) ->
  length (flat_map g l) = length l * n.
Proof.
  induction l as [|x l IH]; intros H; simpl; [reflexivity|].
  rewrite length_app, H by now left.
  rewrite IH by (intros y Hy; apply H; now right). reflexivity.
Qed.

Lemma nth_flat_map_blocks {B : Type} (g : B -> list A) (n : nat) (l : list B)
      (o j : nat) (x0 : B) (d : A) :
  (forall x, In x l -> length (g x) = n) ->
  o < length l -> j < n ->
  nth (o * n + j) (flat_map g l) d = nth j (g (nth o l x0)) d.
Proof.
  revert o. induction l as [|x l IH]; intros o H Ho Hj; simpl in *; [lia|].
  destruct o as [|o].
  - simpl. rewrite app_nth1; [reflexivity|]. rewrite H by now left. assumption.
  - rewrite app_nth2 by (rewrite H by (now left); simpl; lia).
    rewrite H by now left.
    replace (S o * n + j - n) with (o * n + j) by (simpl; lia).
    apply IH; [intros y Hy; apply H; now right | lia | assumption].
Qed.

Lemma nth_flat_map_tab (f : nat -> nat -> A) (B n o j : nat) (d : A) :
  o < B -> j < n ->
  nth (o * n + j) (flat_map (fun o => tab n (f o)) (seq 0 B)) d = f o j.
Proof.
  intros Ho Hj.
  rewrite nth_flat_map_blocks with (x0:=0).
  - rewrite seq_nth by assumption. simpl. now apply nth_tab.
  - intros x _. apply tab_length.
  - now rewrite length_seq.
  - assumption.
Qed.

Lemma flat_map_tab_length (f : nat -> nat -> A) (B n : nat) :
  length (flat_map (fun o => tab n (f o)) (seq 0 B)) = B * n.
Proof.
  rewrite flat_map_blocks_length with (n:=n).
  - now rewrite length_seq.
  - intros x _. apply tab_length.
Qed.

Lemma chunk_length (k sz n : nat) (d : list A) :
  length d = n * sz -> k < n -> length (chunk k sz d) = sz.
Proof.
  intros Hd Hk. unfold chunk. rewrite length_firstn, length_skipn, Hd.
  apply Nat.min_l. nia.
Qed.

Lemma nth_chunk (k sz j : nat) (d : list A) (x : A) :
  j < sz -> nth j (chunk k sz d) x = nth (k * sz + j) d x.
Proof.
  intros Hj. unfold chunk.
  rewrite nth_firstn. apply Nat.ltb_lt in Hj. rewrite Hj.
  now rewrite nth_skipn.
Qed.

Lemma chunk_succ (k sz : nat) (d : list A) :
  chunk (S k) sz d = chunk k sz (skipn sz d).
Proof.
  unfold chunk. rewrite skipn_skipn. do 2 f_equal. simpl. lia.
Qed.

Lemma chunks_concat (n sz : nat) (d : list A) :
  length d = n * sz ->
  flat_map (fun k => chunk k sz d) (seq 0 n) = d.
Proof.
  revert d. induction n as [|n IH]; intros d Hd.
  - simpl in *. now apply length_zero_iff_nil in Hd.
  - simpl. rewrite <- seq_shift, flat_map_concat_map, map_map.
    rewrite <- flat_map_concat_map.
    rewrite (flat_map_ext _ (fun k => chunk k sz (skipn sz d)))
      by (intros k; apply chunk_succ).
    rewrite IH by (rewrite length_skipn, Hd; simpl; lia).
    unfold chunk. simpl. apply firstn_skipn.
Qed.

Lemma expand_same (s : list nat) (d : list A) :
  length d = numel_of s -> expand s s d = d.
Proof.
  revert d. induction s as [|ds s IH]; intros d Hd; simpl; [reflexivity|].
  rewrite Nat.eqb_refl.
  rewrite (flat_map_ext_seq _ (fun k => chunk k (numel_of s) d)).
  - apply chunks_concat. exact Hd.
  - intros k Hk. apply IH. apply chunk_length with (n:=ds); [exact Hd | lia].
Qed.

Lemma zip_with_tab {B C : Type} (f : B -> C -> A) (n : nat)
      (g : nat -> B) (h : nat -> C) :
  zip_with f (tab n g) (tab n h) = tab n (fun i => f (g i) (h i)).
Proof.
  unfold tab. generalize 0. induction n as [|n IH]; intros a; simpl.
  - reflexivity.
  - now rewrite IH.
Qed.

End Storage.

Lemma broadcast_rev_same (s : list nat) : broadcast_rev s s = Some s.
Proof.
  induction s as [|a s IH]; simpl; [reflexivity|].
  now rewrite IH, Nat.eqb_refl.
Qed.

Lemma broadcast_shapes_same (s : list nat) : broadcast_shapes s s = Some s.
Proof.
  unfold broadcast_shapes. rewrite broadcast_rev_same. simpl.
  now rewrite rev_involutive.
Qed.

Lemma pad_shape_same (s : list nat) : pad_shape (length s) s = s.
Proof. unfold pad_shape. now rewrite Nat.sub_diag. Qed.

(** An operation on two tensors of the same shape works entry by entry. *)
Lemma broadcast_op_same (f : R -> R -> R) (a b : tensor R) :
  shape a = shape b -> wf_tensor a -> wf_tensor b ->
  broadcast_op f a b = Ok (mkTensor (shape a) (zip_with f (data a) (data b))).
Proof.
  intros Hs Ha Hb. unfold broadcast_op.
  rewrite <- Hs, broadcast_shapes_same, pad_shape_same.
  rewrite !expand_same; [reflexivity | now rewrite Hs | assumption].
Qed.

(** * The loss against its closed form *)

Open Scope R_scope.

Lemma rsum_ext (n : nat) (f g : nat -> R) :
  (forall i, (i < n)%nat -> f i = g i) -> rsum n f = rsum n g.
Proof.
  induction n as [|n IH]; intros H; simpl; [reflexivity|].
  rewrite IH, (H n) by (intros; try apply H; lia). reflexivity.
Qed.

Lemma sum_list_app (l1 l2 : list R) :
  sum_list (l1 ++ l2) = sum_list l1 + sum_list l2.
Proof.
  induction l1 as [|x l1 IH]; simpl; [lra|]. rewrite IH. lra.
Qed.

Lemma sum_list_tab (n : nat) (f : nat -> R) : sum_list (tab n f) = rsum n f.
Proof.
  induction n as [|n IH]; [reflexivity|].
  unfold tab in *. rewrite seq_S, map_app, sum_list_app, IH. simpl. lra.
Qed.

Close Scope R_scope.

Lemma flat_map_tab1 {A} (f : nat -> nat -> A) (n : nat) :
  flat_map (fun o => tab 1 (f o)) (seq 0 n) = tab n (fun o => f o 0).
Proof.
  unfold tab. simpl. generalize (seq 0 n) as l.
  induction l as [|a l IH]; simpl; [reflexivity | now rewrite IH].
Qed.

Lemma map_flat_map_tab {A B} (h : A -> B) (g : nat -> nat -> A) (n : nat)
      (l : list nat) :
  map h (flat_map (fun b => tab n (g b)) l)
  = flat_map (fun b => tab n (fun s => h (g b s))) l.
Proof.
  induction l as [|x l IH]; simpl; [reflexivity|].
  rewrite map_app, IH. unfold tab. now rewrite map_map.
Qed.

Lemma nth_zip_with {A B C} (f : A -> B -> C) (l1 : list A) (l2 : list B)
      (i : nat) (a : A) (b : B) (c : C) :
  i < length l1 -> i < length l2 ->
  nth i (zip_with f l1 l2) c = f (nth i l1 a) (nth i l2 b).
Proof.
  revert l2 i. induction l1 as [|x l1 IH]; intros [|y l2] [|i] H1 H2;
    simpl in *; try lia; [reflexivity|].
  apply IH; lia.
Qed.

Lemma zip_with_length {A B C} (f : A -> B -> C) (l1 : list A) (l2 : list B) :
  length l1 = length l2 -> length (zip_with f l1 l2) = length l1.
Proof.
  revert l2. induction l1 as [|x l1 IH]; intros [|y l2] H; simpl in *;
    try lia. now rewrite IH by lia.
Qed.

(** ** The scores (lines 133 and 136) *)

Section Scores.
Variables B n E : nat.
Variables iv ov nv : tensor R.
Hypothesis Hiv : shape iv = [B; E].
Hypothesis Hov : shape ov = [B; E].
Hypothesis Hnv : shape nv = [B; n; E].
Hypothesis Wiv : wf_tensor iv.
Hypothesis Wov : wf_tensor ov.

Lemma iv_length : length (data iv) = B * E.
Proof. red in Wiv. rewrite Wiv, Hiv. simpl. lia. Qed.

Lemma ov_length : length (data ov) = B * E.
Proof. red in Wov. rewrite Wov, Hov. simpl. lia. Qed.

Lemma pos_scores_value :
  pos_scores iv ov
  = Ok (mkTensor [B] (tab B (fun b => dot E (at2 E iv b) (at2 E ov b)))).
Proof.
  unfold pos_scores, torch_mul.
  rewrite broadcast_op_same by (assumption || congruence).
  rewrite Hiv. unfold torch_sum, rbind. simpl.
  rewrite Nat.mul_1_r. f_equal. f_equal.
  rewrite flat_map_tab1. apply tab_ext. intros b Hb.
  rewrite sum_list_tab. unfold dot. apply rsum_ext. intros e He.
  replace ((b * E + e) * 1 + 0) with (b * E + e) by lia.
  unfold at2.
  apply nth_zip_with; rewrite ?iv_length, ?ov_length; nia.
Qed.

Lemma neg_scores_value :
  neg_scores iv nv
  = Ok (mkTensor [B; n]
          (flat_map (fun b => tab n (fun s =>
             dot E (at3 n E nv b s) (at2 E iv b))) (seq 0 B))).
Proof.
  unfold neg_scores, unsqueeze, torch_bmm, squeeze, rbind.
  rewrite Hiv. simpl. rewrite Hnv. simpl.
  rewrite !Nat.eqb_refl. simpl.
  f_equal. f_equal.
  apply flat_map_ext_seq. intros b Hb.
  rewrite flat_map_tab1. apply tab_ext. intros s Hs.
  rewrite sum_list_tab. unfold dot. apply rsum_ext. intros e He.
  replace ((b * E + e) * 1 + 0) with (b * E + e) by lia.
  reflexivity.
Qed.

End Scores.

(** ** The two log-sigmoid terms (lines 139 and 140) *)

Lemma map_tab {A B} (h : A -> B) (n : nat) (f : nat -> A) :
  map h (tab n f) = tab n (fun i => h (f i)).
Proof. unfold tab. now rewrite map_map. Qed.

Lemma pos_loss_value (B : nat) (g : nat -> R) :
  pos_loss (mkTensor [B] (tab B g))
  = mkTensor [B] (tab B (fun b => ln (sigmoid (g b) + eps))).
Proof.
  unfold pos_loss, torch_log, add_scalar, torch_sigmoid, tmap. simpl.
  now rewrite !map_tab.
Qed.

Lemma neg_loss_value (B n : nat) (g : nat -> nat -> R) :
  neg_loss (mkTensor [B; n] (flat_map (fun b => tab n (g b)) (seq 0 B)))
  = Ok (mkTensor [B]
          (tab B (fun b => rsum n (fun s => ln (sigmoid (- g b s) + eps)%R)))).
Proof.
  unfold neg_loss, torch_log, add_scalar, torch_sigmoid, torch_neg, tmap.
  simpl. rewrite !map_flat_map_tab.
  unfold torch_sum, rbind. simpl. rewrite Nat.mul_1_r. f_equal. f_equal.
  rewrite flat_map_tab1. apply tab_ext. intros b Hb.
  rewrite sum_list_tab. apply rsum_ext. intros s Hs.
  replace ((b * n + s) * 1 + 0) with (b * n + s) by lia.
  now rewrite nth_flat_map_tab.
Qed.

(** The negative term of every batch entry, for any tensor of scores of
    shape (B, n). *)
Lemma neg_loss_entries (B n : nat) (ns : tensor R) :
  shape ns = [B; n] -> wf_tensor ns ->
  neg_loss ns
  = Ok (mkTensor [B]
          (tab B (fun b => rsum n (fun k =>
             ln (sigmoid (- nth (b * n + k) (data ns) 0) + eps)%R)))).
Proof.
  intros Hs Hw.
  assert (Hl : length (data ns) = B * n)
    by (red in Hw; rewrite Hw, Hs; simpl; lia).
  unfold neg_loss, torch_log, add_scalar, torch_sigmoid, torch_neg, tmap,
    torch_sum, rbind.
  cbn [shape data]. rewrite Hs. simpl. rewrite Nat.mul_1_r.
  f_equal. f_equal. rewrite flat_map_tab1. apply tab_ext. intros b Hb.
  rewrite sum_list_tab. apply rsum_ext. intros k Hk.
  replace ((b * n + k) * 1 + 0) with (b * n + k) by lia.
  rewrite !map_map.
  rewrite nth_indep with (d' := (ln (sigmoid (- 0) + eps))%R)
    by (rewrite length_map, Hl; nia).
  now rewrite map_nth with (f := fun x => (ln (sigmoid (- x) + eps))%R).
Qed.

(** ** The loss as a whole (lines 133-143) *)

Lemma loss_of_value (B n E : nat) (iv ov nv : tensor R) :
  shape iv = [B; E] -> shape ov = [B; E] -> shape nv = [B; n; E] ->
  wf_tensor iv -> wf_tensor ov ->
  loss_of iv ov nv = Ok (mkTensor [] [closed_form_loss B n E iv ov nv]).
Proof.
  intros Hiv Hov Hnv Wiv Wov. unfold loss_of.
  rewrite (pos_scores_value Hiv Hov Wiv Wov), (@neg_scores_value B n E iv nv Hiv Hnv).
  unfold rbind at 1 2. cbv zeta.
  rewrite pos_loss_value, neg_loss_value. unfold rbind at 1.
  unfold torch_add. rewrite broadcast_op_same; try reflexivity;
    try (red; simpl; rewrite tab_length; lia).
  unfold rbind. simpl. rewrite zip_with_tab.
  unfold torch_neg, torch_mean, tmap. simpl.
  rewrite sum_list_tab, tab_length. reflexivity.
Qed.

(** * Facts about the monad *)

Lemma scale_1 {A} (d : dist A) : scale 1 d = d.
Proof.
  unfold scale. rewrite <- (map_id d) at 2. apply map_ext.
  intros [p a]. simpl. now rewrite Rmult_1_l.
Qed.

Lemma dbind_dret {A B} (a : A) (f : A -> dist B) : dbind (dret a) f = f a.
Proof. unfold dbind, dret. simpl. now rewrite scale_1, app_nil_r. Qed.

Section MonadFacts.
Context {S A B : Type}.

Lemma bind_lift_ok (a : A) (f : A -> M S B) (s : S) :
  bind (lift (Ok a)) f s = f a s.
Proof. unfold bind, lift. now rewrite dbind_dret. Qed.

Lemma bind_lift_err (e : torch_error) (f : A -> M S B) (s : S) :
  bind (lift (Err e)) f s = dret (Err e, s).
Proof. unfold bind, lift. now rewrite dbind_dret. Qed.

Lemma bind_ret (a : A) (f : A -> M S B) (s : S) :
  bind (ret a) f s = f a s.
Proof. unfold bind, ret. now rewrite dbind_dret. Qed.

Lemma bind_get (f : S -> M S B) (s : S) : bind get f s = f s s.
Proof. unfold bind, get. now rewrite dbind_dret. Qed.

Lemma bind_lift (r : result A) (f : A -> M S B) (s : S) :
  bind (lift r) f s
  = match r with Ok a => f a s | Err e => dret (Err e, s) end.
Proof. destruct r; [apply bind_lift_ok | apply bind_lift_err]. Qed.

End MonadFacts.

Section ReadOnly.
Context {S : Type}.

Lemma read_only_ret {A} (a : A) : read_only (@ret S A a).
Proof. intros s. repeat constructor. Qed.

Lemma read_only_lift {A} (r : result A) : read_only (@lift S A r).
Proof. intros s. repeat constructor. Qed.

Lemma read_only_get : read_only (@get S).
Proof. intros s. repeat constructor. Qed.

Lemma read_only_sample {A} (d : dist A) : read_only (@sample S A d).
Proof.
  intros s. unfold sample. apply Forall_forall. intros o Ho.
  apply in_map_iff in Ho. destruct Ho as [pa [<- _]]. reflexivity.
Qed.

Lemma read_only_bind {A B} (m : M S A) (f : A -> M S B) :
  read_only m -> (forall a, read_only (f a)) -> read_only (bind m f).
Proof.
  intros Hm Hf s. unfold bind, dbind. apply Forall_forall. intros o Ho.
  apply in_flat_map in Ho. destruct Ho as [[p [r s1]] [Hin Ho]].
  specialize (Hm s). rewrite Forall_forall in Hm.
  specialize (Hm _ Hin). simpl in Hm. subst s1.
  unfold scale in Ho. apply in_map_iff in Ho.
  destruct Ho as [[q o'] [<- Ho']]. simpl in *.
  destruct r as [a|e].
  - specialize (Hf a s). rewrite Forall_forall in Hf.
    apply (Hf _ Ho').
  - destruct Ho' as [Ho'|[]]. now inversion Ho'.
Qed.

Lemma read_only_multinomial (w : list R) (k : Z) :
  read_only (@torch_multinomial_replacement S w k).
Proof.
  unfold torch_multinomial_replacement.
  destruct (k <=? 0)%Z; [apply read_only_lift|].
  destruct (too_many_categories w); [apply read_only_lift|].
  destruct (negb (valid_weights w)); [apply read_only_lift|].
  apply read_only_bind; [apply read_only_sample|].
  intros l. apply read_only_ret.
Qed.

End ReadOnly.

Lemma read_only_forward_input (input_words : tensor Z) :
  read_only (forward_input input_words).
Proof.
  unfold forward_input.
  repeat (apply read_only_bind; [|intros ?]);
    auto using read_only_get, read_only_lift, read_only_ret.
Qed.

Lemma read_only_forward_output (output_words : tensor Z) :
  read_only (forward_output output_words).
Proof.
  unfold forward_output.
  repeat (apply read_only_bind; [|intros ?]);
    auto using read_only_get, read_only_lift, read_only_ret.
Qed.

Lemma read_only_forward_noise_words (batch_size n_samples : Z) :
  read_only (forward_noise_words batch_size n_samples).
Proof.
  unfold forward_noise_words.
  repeat (apply read_only_bind; [|intros ?]);
    auto using read_only_get, read_only_multinomial, read_only_ret.
Qed.

Lemma read_only_forward_noise (batch_size n_samples : Z) :
  read_only (forward_noise batch_size n_samples).
Proof.
  unfold forward_noise.
  repeat (apply read_only_bind; [|intros ?]);
    auto using read_only_get, read_only_lift, read_only_ret,
      read_only_multinomial.
Qed.

(** * Embedding lookup *)

Lemma chunk_flat_map_blocks {A B} (g : B -> list A) (n : nat) (l : list B)
      (k : nat) (x0 : B) :
  (forall x, In x l -> length (g x) = n) ->
  k < length l ->
  chunk k n (flat_map g l) = g (nth k l x0).
Proof.
  intros Hg Hk. revert k Hg Hk.
  induction l as [|x l IH]; intros k Hg Hk; simpl in *; [lia|].
  assert (Hx : length (g x) = n) by (apply Hg; now left).
  destruct k as [|k].
  - unfold chunk. simpl.
    rewrite firstn_app, Hx, Nat.sub_diag, firstn_O, app_nil_r.
    apply firstn_all2. lia.
  - rewrite chunk_succ.
    rewrite skipn_app, Hx, Nat.sub_diag, skipn_all2 by lia. simpl.
    apply IH; [intros y Hy; apply Hg; now right | lia].
Qed.

Lemma in_range_forallb (V : nat) (l : list Z) :
  Forall (fun i => (0 <= i < Z.of_nat V)%Z) l ->
  forallb (fun i => (0 <=? i)%Z && (i <? Z.of_nat V)%Z) l = true.
Proof.
  intros H. apply forallb_forall. intros i Hi.
  rewrite Forall_forall in H. specialize (H i Hi).
  apply andb_true_intro. split; [apply Z.leb_le | apply Z.ltb_lt]; lia.
Qed.

Lemma row_length (emb : Embedding) (i : nat) :
  wf_embedding emb -> i < num_embeddings emb ->
  length (row emb i) = embedding_dim emb.
Proof.
  intros [Hs Hw] Hi. unfold row.
  apply chunk_length with (n := num_embeddings emb); [|assumption].
  red in Hw. rewrite Hw, Hs. simpl. lia.
Qed.

(** On indices inside the table, [embedding] returns the rows of the
    table, one per index and in the order of the indices. *)
Lemma embedding_rows (emb : Embedding) (input : tensor Z) :
  wf_embedding emb ->
  Forall (fun i => (0 <= i < Z.of_nat (num_embeddings emb))%Z) (data input) ->
  exists t,
    embedding emb input = Ok t
    /\ shape t = shape input ++ [embedding_dim emb]
    /\ data t = flat_map (fun i => row emb (Z.to_nat i)) (data input)
    /\ length (data t) = length (data input) * embedding_dim emb
    /\ forall k, k < length (data input) ->
         chunk k (embedding_dim emb) (data t)
         = row emb (Z.to_nat (nth k (data input) 0%Z)).
Proof.
  intros Hwf Hin. unfold embedding.
  rewrite in_range_forallb by assumption.
  assert (Hlen : forall x, In x (data input) ->
            length (row emb (Z.to_nat x)) = embedding_dim emb).
  { intros x Hx. apply row_length; [assumption|].
    rewrite Forall_forall in Hin. specialize (Hin x Hx). lia. }
  eexists. split; [reflexivity|]. simpl. repeat split.
  - now apply flat_map_blocks_length.
  - intros k Hk.
    now apply (chunk_flat_map_blocks (fun i => row emb (Z.to_nat i))).
Qed.

Lemma forward_input_run (self : SkipGramNeg) (input_words : tensor Z) :
  forward_input input_words self
  = dret (embedding (in_embed self) input_words, self).
Proof.
  unfold forward_input. rewrite bind_get, bind_lift.
  destruct (embedding (in_embed self) input_words); reflexivity.
Qed.

Lemma forward_output_run (self : SkipGramNeg) (output_words : tensor Z) :
  forward_output output_words self
  = dret (embedding (out_embed self) output_words, self).
Proof.
  unfold forward_output. rewrite bind_get, bind_lift.
  destruct (embedding (out_embed self) output_words); reflexivity.
Qed.

(** * Sampling *)

Open Scope R_scope.

Lemma prob_app {A} (P : A -> bool) (d1 d2 : dist A) :
  prob P (d1 ++ d2) = prob P d1 + prob P d2.
Proof. unfold prob. now rewrite map_app, sum_list_app. Qed.

Lemma prob_scale {A} (P : A -> bool) (p : R) (d : dist A) :
  prob P (scale p d) = p * prob P d.
Proof.
  unfold prob, scale. induction d as [|[q a] d IH]; simpl; [lra|].
  rewrite IH. destruct (P a); lra.
Qed.

Lemma prob_dbind {A B} (P : B -> bool) (d : dist A) (f : A -> dist B) :
  prob P (dbind d f)
  = sum_list (map (fun pa => fst pa * prob P (f (snd pa))) d).
Proof.
  unfold dbind. induction d as [|[q a] d IH]; simpl; [reflexivity|].
  now rewrite prob_app, prob_scale, IH.
Qed.

Lemma prob_map {A B} (P : B -> bool) (g : A -> B) (d : dist A) :
  prob P (map (fun pa => (fst pa, g (snd pa))) d)
  = prob (fun a => P (g a)) d.
Proof.
  unfold prob. rewrite map_map. reflexivity.
Qed.

Lemma prob_ext {A} (P Q : A -> bool) (d : dist A) :
  (forall a, P a = Q a) -> prob P d = prob Q d.
Proof.
  intros H. unfold prob. apply f_equal, map_ext. intros [p a]. simpl.
  now rewrite H.
Qed.

Lemma dbind_dret_r {A B} (d : dist A) (h : A -> B) :
  dbind d (fun a => dret (h a)) = map (fun pa => (fst pa, h (snd pa))) d.
Proof.
  induction d as [|[q a] d IH]; [reflexivity|].
  unfold dbind, dret, scale in *. simpl in *. now rewrite IH, Rmult_1_r.
Qed.

Close Scope R_scope.

Lemma rsum_indicator (n i0 : nat) (c : nat -> R) :
  i0 < n ->
  rsum n (fun i => if Nat.eq_dec i i0 then c i else 0%R) = c i0.
Proof.
  induction n as [|n IH]; intros Hi; [lia|]. simpl.
  destruct (Nat.eq_dec n i0) as [->|Hne].
  - rewrite rsum_ext with (g := fun _ => 0%R).
    + assert (Hz : forall k, rsum k (fun _ => 0%R) = 0%R)
        by (induction k; simpl; [|rewrite IHk]; lra).
      rewrite Hz. lra.
    + intros i Hlt. destruct (Nat.eq_dec i i0); [lia | reflexivity].
  - rewrite IH by lia. lra.
Qed.

Lemma categorical_in (w : list R) (p : R) (i : nat) :
  In (p, i) (categorical w) -> i < length w.
Proof.
  unfold categorical, tab. intros H. apply in_map_iff in H.
  destruct H as [j [Hj Hin]]. inversion Hj; subst. apply in_seq in Hin. lia.
Qed.

(** Every outcome of [draws w n] is a sequence of [n] indices of [w]. *)
Lemma draws_support (w : list R) (n : nat) (p : R) (l : list nat) :
  In (p, l) (draws w n) ->
  length l = n /\ Forall (fun i => i < length w) l.
Proof.
  revert p l. induction n as [|n IH]; intros p l H; simpl in H.
  - destruct H as [H|[]]. inversion H; subst. split; [reflexivity|constructor].
  - unfold dbind at 1 in H. apply in_flat_map in H.
    destruct H as [[q i] [Hi H]]. simpl in H.
    unfold scale in H. apply in_map_iff in H.
    destruct H as [[q1 l1] [Heq H]]. simpl in Heq.
    rewrite dbind_dret_r in H. apply in_map_iff in H.
    destruct H as [[q2 l2] [Heq2 H]]. simpl in Heq2.
    inversion Heq2; subst. inversion Heq; subst.
    destruct (IH _ _ H) as [Hlen Hall].
    split; [simpl; now rewrite Hlen|].
    constructor; [now apply categorical_in in Hi | assumption].
Qed.

(** Independent draws: the probability of a sequence is the product of the
    probabilities of its entries. *)
Lemma prob_draws (w : list R) (ws : list nat) :
  Forall (fun i => i < length w) ws ->
  prob (same_draws ws) (draws w (length ws)) = seq_prob w ws.
Proof.
  induction ws as [|i0 ws IH]; intros Hall.
  - simpl. unfold prob, dret, same_draws. simpl.
    destruct (list_eq_dec Nat.eq_dec [] []); [lra | congruence].
  - inversion Hall as [|? ? Hi0 Hall']; subst. simpl.
    rewrite prob_dbind. unfold categorical. rewrite map_tab. simpl.
    rewrite sum_list_tab.
    rewrite rsum_ext with (g := fun i => if Nat.eq_dec i i0
               then (nth i w 0 / sum_list w * seq_prob w ws)%R else 0%R).
    + now rewrite rsum_indicator.
    + intros i Hi. rewrite dbind_dret_r, prob_map.
      destruct (Nat.eq_dec i i0) as [->|Hne].
      * f_equal. rewrite <- IH by assumption. apply prob_ext.
        intros l. unfold same_draws.
        destruct (list_eq_dec Nat.eq_dec (i0 :: l) (i0 :: ws)) as [E|E],
                 (list_eq_dec Nat.eq_dec l ws) as [E'|E'];
          try reflexivity; congruence.
      * rewrite prob_ext with (Q := fun _ => false).
        -- unfold prob.
           assert (Hz : forall (d : dist (list nat)),
                     sum_list (map (fun pa : R * list nat =>
                        if false then fst pa else 0%R) d) = 0%R)
             by (induction d; simpl; [|rewrite IHd]; lra).
           rewrite Hz. lra.
        -- intros l. unfold same_draws.
           destruct (list_eq_dec Nat.eq_dec (i :: l) (i0 :: ws)) as [E|E];
             [congruence | reflexivity].
Qed.

Lemma seq_prob_cons (w : list R) (i : nat) (l : list nat) :
  seq_prob w (i :: l) = (nth i w 0 / sum_list w * seq_prob w l)%R.
Proof. reflexivity. Qed.

(** Every outcome of [draws] carries the product of the probabilities of
    its entries. *)
Lemma draws_outcome_prob (w : list R) (n : nat) (p : R) (l : list nat) :
  In (p, l) (draws w n) -> p = seq_prob w l.
Proof.
  revert p l. induction n as [|n IH]; intros p l H; simpl in H.
  - destruct H as [H|[]]. now inversion H.
  - unfold dbind at 1 in H. apply in_flat_map in H.
    destruct H as [[q i] [Hi H]]. simpl in H.
    rewrite dbind_dret_r in H. unfold scale in H.
    rewrite map_map in H. apply in_map_iff in H.
    destruct H as [[q1 l1] [Heq H]]. simpl in Heq. inversion Heq; subst.
    rewrite seq_prob_cons, <- (IH _ _ H). f_equal.
    unfold categorical, tab in Hi. apply in_map_iff in Hi.
    destruct Hi as [j [Hj _]]. now inversion Hj.
Qed.

(** * Runs of [forward_noise] *)

Lemma dbind_ext {A B} (d : dist A) (f g : A -> dist B) :
  (forall a, f a = g a) -> dbind d f = dbind d g.
Proof.
  intros H. unfold dbind. apply flat_map_ext. intros [p a]. simpl.
  now rewrite H.
Qed.

Lemma bind_map_ok {S X A B} (m : M S A) (d : dist X) (g : X -> A)
      (f : A -> M S B) (s : S) :
  m s = map (fun px => (fst px, (Ok (g (snd px)), s))) d ->
  bind m f s = dbind d (fun x => f (g x) s).
Proof.
  intros H. unfold bind, dbind. rewrite H.
  rewrite flat_map_concat_map, map_map, <- flat_map_concat_map.
  reflexivity.
Qed.

Lemma valid_weights_true (w : list R) :
  Forall (fun x => (0 <= x)%R) w -> (0 < sum_list w)%R ->
  valid_weights w = true.
Proof.
  intros Hall Hsum. unfold valid_weights. apply andb_true_intro. split.
  - apply forallb_forall. intros x Hx. rewrite Forall_forall in Hall.
    destruct (Rle_dec 0 x) as [_|Hn]; [reflexivity|].
    exfalso. apply Hn. now apply Hall.
  - destruct (Rlt_dec 0 (sum_list w)); [reflexivity | contradiction].
Qed.

Lemma multinomial_run {S} (w : list R) (k : Z) (s : S) :
  (0 < k)%Z -> too_many_categories w = false -> valid_weights w = true ->
  torch_multinomial_replacement w k s
  = map (fun pl => (fst pl,
           (Ok (mkTensor [Z.to_nat k] (map Z.of_nat (snd pl))), s)))
        (draws w (Z.to_nat k)).
Proof.
  intros Hk Hc Hw. unfold torch_multinomial_replacement.
  replace (k <=? 0)%Z with false by (symmetry; apply Z.leb_gt; lia).
  rewrite Hc, Hw. simpl.
  rewrite bind_map_ok with (d := draws w (Z.to_nat k)) (g := fun l => l)
    by reflexivity.
  unfold ret. now rewrite dbind_dret_r.
Qed.

Lemma forward_noise_words_run (self : SkipGramNeg) (batch_size n_samples : Z) :
  (0 < batch_size * n_samples)%Z ->
  too_many_categories (noise_weights self) = false ->
  valid_weights (noise_weights self) = true ->
  forward_noise_words batch_size n_samples self
  = map (fun pl => (fst pl,
           (Ok (mkTensor [Z.to_nat (batch_size * n_samples)]
                         (map Z.of_nat (snd pl))), self)))
        (draws (noise_weights self) (Z.to_nat (batch_size * n_samples))).
Proof.
  intros Hk Hc Hw. unfold forward_noise_words. rewrite bind_get.
  fold (noise_weights self). cbv zeta.
  rewrite bind_map_ok
    with (d := draws (noise_weights self) (Z.to_nat (batch_size * n_samples)))
         (g := fun l => mkTensor [Z.to_nat (batch_size * n_samples)]
                                 (map Z.of_nat l))
    by (apply multinomial_run; assumption).
  unfold ret, tensor_to. now rewrite dbind_dret_r.
Qed.

Lemma forward_noise_run (self : SkipGramNeg) (batch_size n_samples : Z) :
  (0 < batch_size * n_samples)%Z ->
  too_many_categories (noise_weights self) = false ->
  valid_weights (noise_weights self) = true ->
  forward_noise batch_size n_samples self
  = map (fun pl => (fst pl,
           (noise_vectors_of self batch_size n_samples
              (mkTensor [Z.to_nat (batch_size * n_samples)]
                        (map Z.of_nat (snd pl))), self)))
        (draws (noise_weights self) (Z.to_nat (batch_size * n_samples))).
Proof.
  intros Hk Hc Hw. unfold forward_noise.
  rewrite bind_map_ok
    with (d := draws (noise_weights self) (Z.to_nat (batch_size * n_samples)))
         (g := fun l => mkTensor [Z.to_nat (batch_size * n_samples)]
                                 (map Z.of_nat l))
    by (apply forward_noise_words_run; assumption).
  rewrite <- dbind_dret_r
    with (h := fun l => (noise_vectors_of self batch_size n_samples
                           (mkTensor [Z.to_nat (batch_size * n_samples)]
                                     (map Z.of_nat l)), self)).
  apply dbind_ext. intros l.
  rewrite bind_get, bind_lift. unfold noise_vectors_of, rbind.
  destruct (embedding (out_embed self) _) as [t|e]; [|reflexivity].
  rewrite bind_lift.
  destruct (view t _) as [v|e]; reflexivity.
Qed.

Lemma view_3 {A} (t : tensor A) (b n : Z) (E : nat) :
  (1 <= b)%Z -> (1 <= n)%Z ->
  length (data t) = Z.to_nat (b * n) * E ->
  view t [b; n; Z.of_nat E]
  = Ok (mkTensor [Z.to_nat b; Z.to_nat n; E] (data t)).
Proof.
  intros Hb Hn Hlen. unfold view, view_known.
  assert (Hb1 : (b <? -1)%Z = false) by (apply Z.ltb_ge; lia).
  assert (Hn1 : (n <? -1)%Z = false) by (apply Z.ltb_ge; lia).
  assert (HE1 : (Z.of_nat E <? -1)%Z = false) by (apply Z.ltb_ge; lia).
  assert (Hb2 : (b =? -1)%Z = false) by (apply Z.eqb_neq; lia).
  assert (Hn2 : (n =? -1)%Z = false) by (apply Z.eqb_neq; lia).
  assert (HE2 : (Z.of_nat E =? -1)%Z = false) by (apply Z.eqb_neq; lia).
  cbn [existsb filter]. rewrite Hb1, Hn1, HE1, Hb2, Hn2, HE2.
  cbn [orb negb filter length fold_right map].
  replace (b * (n * (Z.of_nat E * 1)) =? Z.of_nat (length (data t)))%Z
    with true.
  - now rewrite Nat2Z.id.
  - symmetry. apply Z.eqb_eq. rewrite Hlen, Nat2Z.inj_mul, Z2Nat.id; lia.
Qed.

Lemma noise_vectors_rows (self : SkipGramNeg) (b n : Z) (l : list nat) :
  wf_model self -> (1 <= b)%Z -> (1 <= n)%Z ->
  length l = Z.to_nat (b * n) ->
  Forall (fun i => i < n_vocab self) l ->
  noise_vectors_of self b n (mkTensor [Z.to_nat (b * n)] (map Z.of_nat l))
  = Ok (mkTensor [Z.to_nat b; Z.to_nat n; n_embed self]
          (flat_map (row (out_embed self)) l)).
Proof.
  intros (_ & _ & _ & HV & HE & Hwf) Hb Hn Hlen Hall.
  unfold noise_vectors_of.
  destruct (@embedding_rows (out_embed self)
              (mkTensor [Z.to_nat (b * n)] (map Z.of_nat l)) Hwf)
    as (t & Ht & _ & Hdata & Hlen' & _).
  { simpl. rewrite Forall_forall in *. intros z Hz.
    apply in_map_iff in Hz. destruct Hz as [i [<- Hi]].
    specialize (Hall i Hi). rewrite HV. lia. }
  rewrite Ht. simpl. simpl in Hdata, Hlen'.
  rewrite length_map, Hlen, HE in Hlen'.
  rewrite view_3 by assumption.
  rewrite Hdata, flat_map_concat_map, map_map, <- flat_map_concat_map.
  do 2 f_equal. apply flat_map_ext. intros i. now rewrite Nat2Z.id.
Qed.

Lemma noise_slices (self : SkipGramNeg) (l : list nat) (k : nat) :
  wf_model self ->
  Forall (fun i => i < n_vocab self) l ->
  k < length l ->
  chunk k (n_embed self) (flat_map (row (out_embed self)) l)
  = row (out_embed self) (nth k l 0).
Proof.
  intros (_ & _ & _ & HV & HE & Hwf) Hall Hk.
  apply chunk_flat_map_blocks; [|assumption].
  intros i Hi. rewrite <- HE. apply row_length; [assumption|].
  rewrite Forall_forall in Hall. rewrite HV. now apply Hall.
Qed.

Lemma Forall_lt_le (l : list nat) (a b : nat) :
  a <= b -> Forall (fun i => i < a) l -> Forall (fun i => i < b) l.
Proof.
  intros Hab H. eapply Forall_impl; [|exact H]. simpl. intros; lia.
Qed.

(** * Which errors can come out *)

Lemma embedding_err (emb : Embedding) (input : tensor Z) (e : torch_error) :
  embedding emb input = Err e -> e = IndexOutOfRange.
Proof.
  unfold embedding. destruct (forallb _ _); intros H; now inversion H.
Qed.

Lemma broadcast_op_err (f : R -> R -> R) (a b : tensor R) (e : torch_error) :
  broadcast_op f a b = Err e -> e = ShapeMismatch.
Proof.
  unfold broadcast_op. destruct (broadcast_shapes _ _); intros H;
    now inversion H.
Qed.

Lemma normalize_dim_err (n : nat) (dim : Z) (e : torch_error) :
  normalize_dim n dim = Err e -> e = DimOutOfRange.
Proof.
  unfold normalize_dim. destruct (_ && _); intros H; now inversion H.
Qed.

Lemma torch_sum_err (t : tensor R) (dim : Z) (e : torch_error) :
  torch_sum t dim = Err e -> e = DimOutOfRange.
Proof.
  unfold torch_sum, rbind.
  destruct (normalize_dim _ dim) eqn:E; intros H; inversion H; subst.
  now apply normalize_dim_err in E.
Qed.

Lemma unsqueeze_err {A} (t : tensor A) (dim : Z) (e : torch_error) :
  unsqueeze t dim = Err e -> e = DimOutOfRange.
Proof.
  unfold unsqueeze, rbind.
  destruct (normalize_dim _ dim) eqn:E; intros H; inversion H; subst.
  now apply normalize_dim_err in E.
Qed.

Lemma squeeze_err {A} (t : tensor A) (dim : Z) (e : torch_error) :
  squeeze t dim = Err e -> e = DimOutOfRange.
Proof.
  unfold squeeze, rbind.
  destruct (normalize_dim _ dim) eqn:E.
  - destruct (nth_error _ _) as [[|[|?]]|]; intros H; inversion H.
  - intros H; inversion H; subst. now apply normalize_dim_err in E.
Qed.

Lemma torch_bmm_err (a b : tensor R) (e : torch_error) :
  torch_bmm a b = Err e -> e = ShapeMismatch.
Proof.
  unfold torch_bmm.
  repeat match goal with
         | |- context [match ?x with _ => _ end] => destruct x
         end; intros H; now inversion H.
Qed.

Lemma view_err {A} (t : tensor A) (dims : list Z) (e : torch_error) :
  view t dims = Err e -> e = ShapeMismatch.
Proof.
  unfold view.
  repeat match goal with
         | |- context [if ?x then _ else _] => destruct x
         | |- context [match ?x with _ => _ end] => destruct x
         end; intros H; now inversion H.
Qed.

Lemma rbind_err {A B} (r : result A) (f : A -> result B) (e : torch_error) :
  rbind r f = Err e -> r = Err e \/ exists a, r = Ok a /\ f a = Err e.
Proof.
  destruct r as [a|e']; simpl; intros H.
  - right. now exists a.
  - left. now inversion H.
Qed.

Lemma pos_scores_err (iv ov : tensor R) (e : torch_error) :
  pos_scores iv ov = Err e -> is_shape_error e = true.
Proof.
  unfold pos_scores, torch_mul. intros H.
  apply rbind_err in H. destruct H as [H|[a [_ H]]].
  - apply broadcast_op_err in H. now subst.
  - apply torch_sum_err in H. now subst.
Qed.

Lemma neg_scores_err (iv nv : tensor R) (e : torch_error) :
  neg_scores iv nv = Err e -> is_shape_error e = true.
Proof.
  unfold neg_scores. intros H.
  apply rbind_err in H. destruct H as [H|[a [_ H]]].
  - apply unsqueeze_err in H. now subst.
  - apply rbind_err in H. destruct H as [H|[c [_ H]]].
    + apply torch_bmm_err in H. now subst.
    + apply squeeze_err in H. now subst.
Qed.

Lemma loss_of_err (iv ov nv : tensor R) (e : torch_error) :
  loss_of iv ov nv = Err e -> is_shape_error e = true.
Proof.
  unfold loss_of. intros H.
  apply rbind_err in H. destruct H as [H|[ps [_ H]]];
    [now apply pos_scores_err in H|].
  apply rbind_err in H. destruct H as [H|[ns [_ H]]];
    [now apply neg_scores_err in H|].
  cbv zeta in H.
  apply rbind_err in H. destruct H as [H|[nl [_ H]]].
  - unfold neg_loss in H. apply torch_sum_err in H. now subst.
  - apply rbind_err in H. destruct H as [H|[tot [_ H]]].
    + unfold torch_add in H. apply broadcast_op_err in H. now subst.
    + discriminate H.
Qed.

Lemma noise_vectors_of_err (self : SkipGramNeg) (b n : Z) (w : tensor Z)
      (e : torch_error) :
  noise_vectors_of self b n w = Err e ->
  e = IndexOutOfRange \/ e = ShapeMismatch.
Proof.
  unfold noise_vectors_of, rbind.
  destruct (embedding _ _) eqn:E; intros H.
  - right. now apply view_err in H.
  - left. inversion H; subst. now apply embedding_err in E.
Qed.

Lemma bind_err_run {S A B} (m : M S A) (f : A -> M S B) (s : S)
      (e : torch_error) :
  m s = dret (Err e, s) -> bind m f s = dret (Err e, s).
Proof. intros H. unfold bind. rewrite H. now rewrite dbind_dret. Qed.

Lemma forward_noise_words_bad_count (self : SkipGramNeg) (b n : Z) :
  (b * n <= 0)%Z ->
  forward_noise_words b n self = dret (Err InvalidSampleCount, self).
Proof.
  intros H. unfold forward_noise_words. rewrite bind_get. cbv zeta.
  apply bind_err_run. unfold torch_multinomial_replacement.
  replace (b * n <=? 0)%Z with true by (symmetry; apply Z.leb_le; lia).
  reflexivity.
Qed.

Lemma forward_noise_words_too_many (self : SkipGramNeg) (b n : Z) :
  (0 < b * n)%Z -> too_many_categories (noise_weights self) = true ->
  forward_noise_words b n self = dret (Err TooManyCategories, self).
Proof.
  intros H Hc. unfold forward_noise_words. rewrite bind_get. cbv zeta.
  apply bind_err_run. unfold torch_multinomial_replacement.
  replace (b * n <=? 0)%Z with false by (symmetry; apply Z.leb_gt; lia).
  fold (noise_weights self). rewrite Hc. reflexivity.
Qed.

Lemma forward_noise_words_bad_weights (self : SkipGramNeg) (b n : Z) :
  (0 < b * n)%Z ->
  too_many_categories (noise_weights self) = false ->
  valid_weights (noise_weights self) = false ->
  forward_noise_words b n self = dret (Err InvalidDistribution, self).
Proof.
  intros H Hc Hw. unfold forward_noise_words. rewrite bind_get. cbv zeta.
  apply bind_err_run. unfold torch_multinomial_replacement.
  replace (b * n <=? 0)%Z with false by (symmetry; apply Z.leb_gt; lia).
  fold (noise_weights self). rewrite Hc, Hw. reflexivity.
Qed.

(** The three refusals of the sampler, as [forward_noise] passes them on. *)
Lemma forward_noise_bad_count (self : SkipGramNeg) (b n : Z) :
  (b * n <= 0)%Z ->
  forward_noise b n self = dret (Err InvalidSampleCount, self).
Proof.
  intros H. unfold forward_noise. apply bind_err_run.
  now apply forward_noise_words_bad_count.
Qed.

Lemma forward_noise_too_many (self : SkipGramNeg) (b n : Z) :
  (0 < b * n)%Z -> too_many_categories (noise_weights self) = true ->
  forward_noise b n self = dret (Err TooManyCategories, self).
Proof.
  intros H Hc. unfold forward_noise. apply bind_err_run.
  now apply forward_noise_words_too_many.
Qed.

Lemma forward_noise_bad_weights (self : SkipGramNeg) (b n : Z) :
  (0 < b * n)%Z ->
  too_many_categories (noise_weights self) = false ->
  valid_weights (noise_weights self) = false ->
  forward_noise b n self = dret (Err InvalidDistribution, self).
Proof.
  intros H Hc Hw. unfold forward_noise. apply bind_err_run.
  now apply forward_noise_words_bad_weights.
Qed.

Lemma few_categories (w : list R) :
  (Z.of_nat (length w) <= max_categories)%Z -> too_many_categories w = false.
Proof. intros H. unfold too_many_categories. apply Z.ltb_ge. exact H. Qed.

Lemma forward_noise_errors (self : SkipGramNeg) (b n : Z) :
  fails_only (noise_error_allowed self b n) (forward_noise b n self).
Proof.
  unfold fails_only.
  destruct (Z.leb_spec (b * n) 0) as [Hk|Hk].
  - rewrite forward_noise_bad_count by assumption.
    repeat constructor. simpl. apply Z.leb_le. lia.
  - assert (Hp : (0 <? b * n)%Z = true) by (apply Z.ltb_lt; lia).
    destruct (too_many_categories (noise_weights self)) eqn:Hc.
    + rewrite forward_noise_too_many by assumption.
      repeat constructor. simpl. now rewrite Hp, Hc.
    + destruct (valid_weights (noise_weights self)) eqn:Hw.
      * rewrite forward_noise_run by assumption.
        apply Forall_forall. intros o Ho. apply in_map_iff in Ho.
        destruct Ho as [[p l] [<- _]]. simpl.
        destruct (noise_vectors_of _ _ _ _) as [t|e] eqn:E; [exact I|].
        apply noise_vectors_of_err in E.
        destruct E; subst; simpl; now rewrite Hp, Hc, Hw.
      * rewrite forward_noise_bad_weights by assumption.
        repeat constructor. simpl. now rewrite Hp, Hc, Hw.
Qed.

(** * The log-sigmoid with its added constant *)

Open Scope R_scope.

Lemma eps_pos : 0 < eps.
Proof. unfold eps. apply Rinv_0_lt_compat. apply pow_lt. lra. Qed.

Lemma sigmoid_pos (x : R) : 0 < sigmoid x.
Proof.
  unfold sigmoid. apply Rdiv_lt_0_compat; [lra|].
  pose proof (exp_pos (- x)). lra.
Qed.

Lemma sigmoid_inv (x : R) : / sigmoid x = 1 + exp (- x).
Proof.
  unfold sigmoid. pose proof (exp_pos (- x)).
  unfold Rdiv. rewrite Rmult_1_l, Rinv_inv. reflexivity.
Qed.

Lemma ln_1_plus_lt (t : R) : 0 < t -> ln (1 + t) < t.
Proof.
  intros Ht. rewrite <- (ln_exp t) at 2.
  apply ln_increasing; [lra|]. apply exp_ineq1. lra.
Qed.

(** What the added constant does to one term: the term is strictly above
    the exact log-sigmoid, by less than [eps * (1 + exp (- x))], and above
    [ln eps]. *)
Lemma log_sigmoid_eps_bounds (x : R) :
  ln (sigmoid x) < ln (sigmoid x + eps)
  /\ ln (sigmoid x + eps) < ln (sigmoid x) + eps * (1 + exp (- x))
  /\ ln eps < ln (sigmoid x + eps).
Proof.
  pose proof (sigmoid_pos x) as Hs. pose proof eps_pos as He.
  repeat split.
  - apply ln_increasing; lra.
  - replace (sigmoid x + eps) with (sigmoid x * (1 + eps * / sigmoid x))
      by (field; lra).
    assert (Ht : 0 < eps * / sigmoid x)
      by (apply Rmult_lt_0_compat; [lra | now apply Rinv_0_lt_compat]).
    rewrite ln_mult by lra.
    apply Rplus_lt_compat_l. rewrite <- sigmoid_inv.
    now apply ln_1_plus_lt.
  - apply ln_increasing; lra.
Qed.

Lemma exp_3_gt_10 : 10 < exp 3.
Proof.
  pose proof (exp_ineq1 (3 / 8)) as Ha.
  assert (Ha' : 11 / 8 < exp (3 / 8)) by lra.
  set (a := exp (3 / 8)) in *.
  assert (H2 : exp (3 / 4) = a * a).
  { unfold a. rewrite <- exp_plus. f_equal. lra. }
  assert (H4 : exp (3 / 2) = exp (3 / 4) * exp (3 / 4)).
  { rewrite <- exp_plus. f_equal. lra. }
  assert (H8 : exp 3 = exp (3 / 2) * exp (3 / 2)).
  { rewrite <- exp_plus. f_equal. lra. }
  assert (B2 : 121 / 64 < exp (3 / 4)) by (rewrite H2; nra).
  assert (B4 : 14641 / 4096 < exp (3 / 2)) by (rewrite H4; nra).
  rewrite H8. nra.
Qed.

(** [ln 1e-10] is about -23.03. *)
Lemma ln_eps_gt : -30 < ln eps.
Proof.
  unfold eps. rewrite ln_Rinv by (apply pow_lt; lra).
  assert (H : ln (10 ^ 10) < 30); [|lra].
  rewrite ln_pow by lra.
  assert (ln 10 < 3); [|simpl; lra].
  rewrite <- (ln_exp 3). apply ln_increasing; [lra | apply exp_3_gt_10].
Qed.

(** The exact log-sigmoid is below its argument. *)
Lemma ln_sigmoid_lt (x : R) : ln (sigmoid x) < x.
Proof.
  pose proof (sigmoid_pos x) as Hs. pose proof (exp_pos (- x)) as He.
  rewrite <- (Rinv_inv (sigmoid x)), ln_Rinv, sigmoid_inv
    by (rewrite sigmoid_inv; lra).
  assert (- x < ln (1 + exp (- x))); [|lra].
  rewrite <- (ln_exp (- x)) at 1. apply ln_increasing; lra.
Qed.

Lemma pos_loss_single (x : R) :
  pos_loss (mkTensor [1%nat] [x]) = mkTensor [1%nat] [ln (sigmoid x + eps)].
Proof. reflexivity. Qed.

Lemma neg_loss_single (x : R) :
  neg_loss (mkTensor [1%nat; 1%nat] [x])
  = Ok (mkTensor [1%nat] [ln (sigmoid (- x) + eps)]).
Proof.
  unfold neg_loss, torch_sum, rbind. simpl.
  now rewrite Rplus_0_r.
Qed.

Close Scope R_scope.

(** * The draws form a distribution *)

Lemma draws_nonempty (w : list R) (n : nat) : w <> [] -> draws w n <> [].
Proof.
  intros Hw. induction n as [|n IH]; simpl; [discriminate|].
  destruct w as [|x w]; [congruence|].
  destruct (draws (x :: w) n) as [|[q l] d] eqn:E; [congruence|].
  unfold categorical, tab, dbind, dret. simpl. discriminate.
Qed.

Lemma valid_weights_nonempty (w : list R) :
  valid_weights w = true -> w <> [].
Proof.
  intros H ->. unfold valid_weights in H. simpl in H.
  destruct (Rlt_dec 0 0) as [Hlt|]; [lra | discriminate].
Qed.

Lemma rsum_scale (n : nat) (c : R) (f : nat -> R) :
  rsum n (fun i => (f i * c)%R) = (rsum n f * c)%R.
Proof.
  induction n as [|n IH]; simpl; [lra|]. rewrite IH. lra.
Qed.

Lemma categorical_total (w : list R) :
  sum_list w <> 0%R -> prob (fun _ => true) (categorical w) = 1%R.
Proof.
  intros Hs. unfold prob, categorical. rewrite map_tab. simpl.
  rewrite sum_list_tab. unfold Rdiv. rewrite rsum_scale.
  rewrite <- sum_list_tab, tab_nth. now apply Rinv_r.
Qed.

(** The outcomes of [draws w n] carry total probability 1. *)
Lemma draws_total (w : list R) (n : nat) :
  sum_list w <> 0%R -> prob (fun _ => true) (draws w n) = 1%R.
Proof.
  intros Hs. induction n as [|n IH]; simpl.
  - unfold prob, dret. simpl. lra.
  - rewrite prob_dbind.
    rewrite map_ext with (g := fun pa : R * nat =>
                                 if true then fst pa else 0%R).
    + now apply categorical_total.
    + intros [q i]. simpl. rewrite dbind_dret_r, prob_map, IH. lra.
Qed.

Lemma init_wf (V E : nat) (nd : option (list R)) (w_in w_out : list R)
      (cuda : bool) :
  length w_in = V * E -> length w_out = V * E ->
  wf_model (SkipGramNeg_init V E nd w_in w_out cuda).
Proof.
  intros Hin Hout. unfold wf_model, wf_embedding, wf_tensor. simpl.
  rewrite Hin, Hout. repeat split; lia.
Qed.

(** * Probability of the sampled noise words *)

Lemma sum_list_ones (V : nat) : sum_list (torch_ones V) = INR V.
Proof.
  unfold torch_ones. induction V as [|V IH]; [reflexivity|].
  change (repeat 1%R (S V)) with (1%R :: repeat 1%R V).
  simpl sum_list. rewrite IH, S_INR. lra.
Qed.

Lemma nth_ones (V i : nat) : i < V -> nth i (torch_ones V) 0%R = 1%R.
Proof.
  intros Hi. unfold torch_ones. apply nth_repeat_lt. assumption.
Qed.

Lemma valid_weights_ones (V : nat) : 1 <= V -> valid_weights (torch_ones V) = true.
Proof.
  intros HV. apply valid_weights_true.
  - unfold torch_ones. apply Forall_forall. intros x Hx.
    apply repeat_spec in Hx. subst. lra.
  - rewrite sum_list_ones. apply lt_0_INR. lia.
Qed.

Lemma seq_prob_ones (V : nat) (ws : list nat) :
  Forall (fun i => i < V) ws ->
  seq_prob (torch_ones V) ws = ((/ INR V) ^ length ws)%R.
Proof.
  induction ws as [|i ws IH]; intros Hall; [reflexivity|].
  inversion Hall; subst. simpl.
  rewrite IH, nth_ones, sum_list_ones by assumption.
  unfold Rdiv. now rewrite Rmult_1_l.
Qed.

(** On a model built by [__init__] whose noise weights form a distribution
    over the vocabulary, every draw leads to a value. *)
Lemma forward_noise_valid_run (self : SkipGramNeg) (batch_size n_samples : Z) :
  wf_model self ->
  (1 <= batch_size)%Z -> (1 <= n_samples)%Z ->
  too_many_categories (noise_weights self) = false ->
  valid_weights (noise_weights self) = true ->
  length (noise_weights self) <= n_vocab self ->
  forward_noise batch_size n_samples self
  = map (fun pl => (fst pl,
           (Ok (mkTensor [Z.to_nat batch_size; Z.to_nat n_samples; n_embed self]
                         (flat_map (row (out_embed self)) (snd pl))), self)))
        (draws (noise_weights self) (Z.to_nat batch_size * Z.to_nat n_samples)).
Proof.
  intros Hwf Hb Hn Hc Hv Hlen.
  assert (HN : Z.to_nat (batch_size * n_samples)
               = Z.to_nat batch_size * Z.to_nat n_samples)
    by (apply Z2Nat.inj_mul; lia).
  rewrite forward_noise_run by (assumption || nia). rewrite HN.
  apply map_ext_in. intros [p l] Hin. simpl.
  apply draws_support in Hin. destruct Hin as [Hl Hr].
  rewrite <- HN. rewrite noise_vectors_rows; try assumption;
    [reflexivity | now rewrite HN |].
  now apply Forall_lt_le with (a := length (noise_weights self)).
Qed.

Lemma embedding_ok (emb : Embedding) (input : tensor Z) :
  Forall (fun i => (0 <= i < Z.of_nat (num_embeddings emb))%Z) (data input) ->
  exists t, embedding emb input = Ok t.
Proof.
  intros Hin. unfold embedding. rewrite in_range_forallb by assumption.
  eexists. reflexivity.
Qed.

(** With a noise distribution of total weight 0 the sampler refuses the
    distribution. *)
Example forward_noise_zero_weights :
  forward_noise 1 2 zero_noise_model
  = dret (Err InvalidDistribution, zero_noise_model).
Proof.
  apply forward_noise_bad_weights; [lia | reflexivity |].
  unfold valid_weights, noise_weights. simpl.
  destruct (Rlt_dec 0 (0 + (0 + 0))) as [H|H]; [lra|].
  now rewrite andb_false_r.
Qed.

(** [forward_noise] is not deterministic: on the example model a call for
    one noise word has two outcomes of positive probability with different
    values. *)
Example forward_noise_two_outcomes :
  exists (p1 p2 : R) (t1 t2 : tensor R),
    In (p1, (Ok t1, example_model)) (forward_noise 1 1 example_model)
    /\ In (p2, (Ok t2, example_model)) (forward_noise 1 1 example_model)
    /\ (0 < p1)%R /\ (0 < p2)%R
    /\ data t1 = [5%R; 6%R] /\ data t2 = [7%R; 8%R].
Proof.
  assert (Hv : valid_weights (noise_weights example_model) = true).
  { apply valid_weights_true; [repeat constructor; lra | simpl; lra]. }
  rewrite forward_noise_valid_run;
    [| apply init_wf; reflexivity | lia | lia | reflexivity | exact Hv
     | simpl; lia].
  simpl.
  do 4 eexists. split; [left; reflexivity|]. split; [right; left; reflexivity|].
  repeat split; lra.
Qed.

Lemma large_vocab_too_many :
  too_many_categories (repeat 1%R large_vocab) = true.
Proof.
  unfold too_many_categories. rewrite repeat_length.
  unfold large_vocab. rewrite Z2Nat.id by lia. reflexivity.
Qed.

Lemma large_vocab_wf (nd : option (list R)) :
  wf_model (SkipGramNeg_init large_vocab 1 nd
              (repeat 0%R (large_vocab * 1)) (repeat 0%R (large_vocab * 1))
              false).
Proof. apply init_wf; apply repeat_length. Qed.

(** * The claims *)

(** C1. On input vectors and output vectors of shape (B, E) and noise
    vectors of shape (B, n, E), [NegativeSamplingLoss.forward] returns, with
    certainty and leaving the object it runs on untouched, the 0-dimensional
    tensor holding the closed form: minus the mean over the batch of
    [ln (sigmoid (iv[b] . ov[b]) + 1e-10)] plus the sum over [s] of
    [ln (sigmoid (- nv[b][s] . iv[b]) + 1e-10)]. (For an empty batch both
    sides are the same quotient by zero.) *)
Theorem forward_closed_form (S : Type) (s : S) (B n E : nat)
    (iv ov nv : tensor R) :
  shape iv = [B; E] -> shape ov = [B; E] -> shape nv = [B; n; E] ->
  wf_tensor iv -> wf_tensor ov ->
  forward iv ov nv s
  = dret (Ok (mkTensor [] [closed_form_loss B n E iv ov nv]), s).
Proof.
  intros Hiv Hov Hnv Wiv Wov. unfold forward, lift.
  now rewrite loss_of_value with (B := B) (n := n) (E := E).
Qed.

Lemma forward_closed_form_witness :
  (shape example_input = [2; 2] /\ shape example_output = [2; 2]
   /\ shape example_noise = [2; 1; 2]
   /\ wf_tensor example_input /\ wf_tensor example_output)
  /\ forward example_input example_output example_noise tt
     = dret (Ok (mkTensor []
                   [closed_form_loss 2 1 2 example_input example_output
                      example_noise]), tt).
Proof.
  split.
  - repeat split.
  - apply forward_closed_form; reflexivity.
Defined.

(** C2 does not hold as stated: at the score -100 the term computed by
    line 139 is above -30 (it is about [ln 1e-10 = -23.03]), while the exact
    log-sigmoid is below -100. *)
Lemma log_sigmoid_not_exact :
  pos_loss (mkTensor [1] [(-100)%R]) <> mkTensor [1] [ln (sigmoid (-100))]
  /\ (ln (sigmoid (-100)) < -100)%R
  /\ (-30 < ln (sigmoid (-100) + eps))%R.
Proof.
  assert (Hlo : (ln (sigmoid (-100)) < -100)%R) by apply ln_sigmoid_lt.
  assert (Hhi : (-30 < ln (sigmoid (-100) + eps))%R).
  { pose proof ln_eps_gt. pose proof (log_sigmoid_eps_bounds (-100)). lra. }
  repeat split; try assumption.
  rewrite pos_loss_single. intros H. inversion H as [H1]. lra.
Qed.

(** C2, amended. The term of the loss is not an exact log-sigmoid but the
    logarithm of the sigmoid plus 1e-10: for positive scores of any shape,
    line 139 gives [ln (sigmoid x + 1e-10)] entry by entry, and for noise
    scores of shape (B, n), line 140 gives for every [b] the sum over the
    noise words of [ln (sigmoid (- x) + 1e-10)]; the added constant is part
    of the function that is computed. *)
Theorem log_sigmoid_with_eps (ps ns : tensor R) (B n : nat) :
  shape ns = [B; n] -> wf_tensor ns ->
  shape (pos_loss ps) = shape ps
  /\ data (pos_loss ps) = map (fun x => ln (sigmoid x + eps)%R) (data ps)
  /\ neg_loss ns
     = Ok (mkTensor [B]
             (tab B (fun b => rsum n (fun k =>
                ln (sigmoid (- nth (b * n + k) (data ns) 0) + eps)%R)))).
Proof.
  intros Hs Hw. split; [reflexivity|]. split.
  - unfold pos_loss, torch_log, add_scalar, torch_sigmoid, tmap. simpl.
    now rewrite !map_map.
  - now apply neg_loss_entries.
Qed.

Lemma log_sigmoid_with_eps_witness :
  (shape (mkTensor [1; 2] [1%R; 2%R]) = [1; 2]
   /\ wf_tensor (mkTensor [1; 2] [1%R; 2%R]))
  /\ data (pos_loss (mkTensor [2] [0%R; (-100)%R]))
     = [ln (sigmoid 0 + eps); ln (sigmoid (-100) + eps)]
  /\ neg_loss (mkTensor [1; 2] [1%R; 2%R])
     = Ok (mkTensor [1]
             (tab 1 (fun b => rsum 2 (fun k =>
                ln (sigmoid (- nth (b * 2 + k) [1%R; 2%R] 0) + eps)%R)))).
Proof.
  split; [repeat split|].
  destruct (@log_sigmoid_with_eps (mkTensor [2] [0%R; (-100)%R])
              (mkTensor [1; 2] [1%R; 2%R]) 1 2 eq_refl eq_refl)
    as (_ & Hp & Hn).
  split; [exact Hp | exact Hn].
Defined.

(** C3. On well-shaped inputs the two score tensors exist; [pos_scores]
    has shape (B) and its entry [b] is the dot product of [iv[b]] with
    [ov[b]]; [neg_scores] has shape (B, n) and its entry [b][s] is the dot
    product of [nv[b][s]] with [iv[b]]; and the loss is minus the mean over
    [b] of [ln (sigmoid (+ pos_scores[b]) + 1e-10)] plus the sum over [s] of
    [ln (sigmoid (- neg_scores[b][s]) + 1e-10)]. *)
Theorem scores_and_signs (S : Type) (s : S) (B n E : nat)
    (iv ov nv : tensor R) :
  shape iv = [B; E] -> shape ov = [B; E] -> shape nv = [B; n; E] ->
  wf_tensor iv -> wf_tensor ov ->
  exists ps ns : tensor R,
    pos_scores iv ov = Ok ps /\ neg_scores iv nv = Ok ns
    /\ shape ps = [B] /\ shape ns = [B; n]
    /\ (forall b, b < B ->
          nth b (data ps) 0%R = dot E (at2 E iv b) (at2 E ov b))
    /\ (forall b k, b < B -> k < n ->
          nth (b * n + k) (data ns) 0%R = dot E (at3 n E nv b k) (at2 E iv b))
    /\ forward iv ov nv s
       = dret (Ok (mkTensor []
            [(- (rsum B (fun b =>
                   ln (sigmoid (nth b (data ps) 0) + eps)
                   + rsum n (fun k =>
                       ln (sigmoid (- nth (b * n + k) (data ns) 0) + eps)))
                 / INR B))%R]), s).
Proof.
  intros Hiv Hov Hnv Wiv Wov.
  eexists. eexists.
  split; [apply (pos_scores_value Hiv Hov Wiv Wov)|].
  split; [apply (@neg_scores_value B n E iv nv Hiv Hnv)|].
  simpl. repeat split.
  - intros b Hb. now rewrite nth_tab.
  - intros b k Hb Hk. now rewrite nth_flat_map_tab.
  - unfold forward, lift.
    rewrite loss_of_value with (B := B) (n := n) (E := E) by assumption.
    unfold closed_form_loss.
    match goal with
    | |- context [(rsum B ?g / INR B)%R] =>
        rewrite (@rsum_ext B (closed_form_term n E iv ov nv) g);
        [reflexivity|]
    end.
    intros b Hb. unfold closed_form_term.
    rewrite nth_tab by assumption. f_equal.
    apply rsum_ext. intros k Hk. now rewrite nth_flat_map_tab.
Qed.

Lemma scores_and_signs_witness :
  (shape example_input = [2; 2] /\ shape example_output = [2; 2]
   /\ shape example_noise = [2; 1; 2]
   /\ wf_tensor example_input /\ wf_tensor example_output)
  /\ exists ps ns : tensor R,
       pos_scores example_input example_output = Ok ps
       /\ neg_scores example_input example_noise = Ok ns
       /\ shape ps = [2] /\ shape ns = [2; 1].
Proof.
  split.
  - repeat split.
  - destruct (@scores_and_signs unit tt 2 1 2 example_input example_output
                example_noise eq_refl eq_refl eq_refl eq_refl eq_refl)
      as (ps & ns & H1 & H2 & H3 & H4 & _).
    exists ps, ns. repeat split; assumption.
Defined.

(** C4 does not hold as stated: a noise distribution of 2^24 + 1 equal
    weights is refused by the sampler for having too many categories, and
    [forward_noise], asked for one noise word, draws nothing. *)
Lemma no_draw_from_long_noise_dist :
  wf_model large_noise_model
  /\ noise_dist large_noise_model = Some (repeat 1%R large_vocab)
  /\ forward_noise 1 1 large_noise_model
     = dret (Err TooManyCategories, large_noise_model)
  /\ ~ (exists (p : R) (t : tensor R) (s' : SkipGramNeg),
          In (p, (Ok t, s')) (forward_noise 1 1 large_noise_model)).
Proof.
  assert (H : forward_noise 1 1 large_noise_model
              = dret (Err TooManyCategories, large_noise_model)).
  { apply forward_noise_too_many; [lia|]. exact large_vocab_too_many. }
  split; [apply large_vocab_wf|]. split; [reflexivity|].
  split; [exact H|].
  rewrite H. intros (p & t & s' & [Hin|[]]). discriminate Hin.
Qed.

(** C4, amended. [forward_noise] obtains its noise words from the model's
    noise distribution [w] by a multinomial draw with replacement. Whenever the
    sampler accepts the request (a positive number [batch_size * n_samples]
    of samples, at most 2^24 categories, non-negative weights of positive
    total), the outcomes of [forward_noise] are, one for one and with the
    same probabilities, the sequences of [batch_size * n_samples] independent
    draws from [w], each followed by the lookup of lines 90-92: the
    probabilities add up to 1 and every sequence of indices of [w], repeated
    indices included, has the product of the probabilities [w_i / sum w] of
    its entries. When the sampler refuses the request, [forward_noise] ends
    in the sampler's error. *)
Theorem noise_words_multinomial (self : SkipGramNeg) (w : list R)
    (batch_size n_samples : Z) :
  noise_dist self = Some w ->
  ((batch_size * n_samples <= 0)%Z ->
   forward_noise batch_size n_samples self
   = dret (Err InvalidSampleCount, self))
  /\ ((0 < batch_size * n_samples)%Z ->
      (max_categories < Z.of_nat (length w))%Z ->
      forward_noise batch_size n_samples self
      = dret (Err TooManyCategories, self))
  /\ ((0 < batch_size * n_samples)%Z ->
      (Z.of_nat (length w) <= max_categories)%Z ->
      valid_weights w = false ->
      forward_noise batch_size n_samples self
      = dret (Err InvalidDistribution, self))
  /\ ((0 < batch_size * n_samples)%Z ->
      (Z.of_nat (length w) <= max_categories)%Z ->
      Forall (fun x => (0 <= x)%R) w -> (0 < sum_list w)%R ->
      forward_noise batch_size n_samples self
      = map (fun pl => (fst pl,
               (noise_vectors_of self batch_size n_samples
                  (mkTensor [Z.to_nat (batch_size * n_samples)]
                            (map Z.of_nat (snd pl))), self)))
            (draws w (Z.to_nat (batch_size * n_samples)))
      /\ prob (fun _ => true) (forward_noise batch_size n_samples self) = 1%R
      /\ (forall p l,
            In (p, l) (draws w (Z.to_nat (batch_size * n_samples))) ->
            length l = Z.to_nat (batch_size * n_samples)
            /\ Forall (fun i => i < length w) l
            /\ p = seq_prob w l)
      /\ forall ws : list nat,
           length ws = Z.to_nat (batch_size * n_samples) ->
           Forall (fun i => i < length w) ws ->
           prob (same_draws ws) (draws w (Z.to_nat (batch_size * n_samples)))
           = seq_prob w ws).
Proof.
  intros Hnd.
  assert (Hw : noise_weights self = w) by (unfold noise_weights; now rewrite Hnd).
  split; [|split; [|split]].
  - intros Hk. now apply forward_noise_bad_count.
  - intros Hk Hc. apply forward_noise_too_many; [assumption|].
    rewrite Hw. unfold too_many_categories. now apply Z.ltb_lt.
  - intros Hk Hc Hv.
    apply forward_noise_bad_weights; rewrite ?Hw; try assumption.
    now apply few_categories.
  - intros Hk Hc Hall Hsum.
    assert (Hc' : too_many_categories (noise_weights self) = false)
      by (rewrite Hw; now apply few_categories).
    assert (Hv : valid_weights (noise_weights self) = true)
      by (rewrite Hw; now apply valid_weights_true).
    assert (Hrun := @forward_noise_run self batch_size n_samples Hk Hc' Hv). rewrite Hw in Hrun.
    split; [exact Hrun|]. split; [|split].
    + rewrite Hrun.
      rewrite prob_map
        with (P := fun _ : result (tensor R) * SkipGramNeg => true)
             (g := fun l => (noise_vectors_of self batch_size n_samples
                               (mkTensor [Z.to_nat (batch_size * n_samples)]
                                         (map Z.of_nat l)), self)).
      apply draws_total. lra.
    + intros p l Hin. destruct (draws_support _ _ _ _ Hin) as [Hl Hr].
      repeat split; try assumption. now apply draws_outcome_prob in Hin.
    + intros ws Hlen Hin. rewrite <- Hlen. now apply prob_draws.
Qed.

Lemma noise_words_multinomial_witness :
  (noise_dist example_model = Some [1%R; 3%R]
   /\ (0 < 1 * 2)%Z /\ (Z.of_nat (length [1%R; 3%R]) <= max_categories)%Z
   /\ Forall (fun x => (0 <= x)%R) [1%R; 3%R]
   /\ (0 < sum_list [1%R; 3%R])%R)
  /\ forward_noise 1 2 example_model
     = map (fun pl => (fst pl,
              (noise_vectors_of example_model 1 2
                 (mkTensor [2] (map Z.of_nat (snd pl))), example_model)))
           (draws [1%R; 3%R] 2)
  /\ prob (fun _ => true) (forward_noise 1 2 example_model) = 1%R.
Proof.
  assert (H1 : Forall (fun x => (0 <= x)%R) [1%R; 3%R])
    by (repeat constructor; lra).
  assert (H2 : (0 < sum_list [1%R; 3%R])%R) by (simpl; lra).
  assert (H3 : (0 < 1 * 2)%Z) by lia.
  assert (H4 : (Z.of_nat (length [1%R; 3%R]) <= max_categories)%Z)
    by (unfold max_categories; simpl; lia).
  split; [repeat split; assumption|].
  destruct (@noise_words_multinomial example_model [1%R; 3%R] 1 2 eq_refl)
    as (_ & _ & _ & Hacc).
  destruct (Hacc H3 H4 H1 H2) as (Hrun & Htot & _).
  split; [exact Hrun | exact Htot].
Defined.

(** C5. On word indices that all lie in [0, n_vocab), [forward_input]
    returns, with certainty and without touching the model, the tensor whose
    shape is that of the indices followed by [n_embed] and whose [k]-th row
    is the row of [in_embed] for the [k]-th index; [forward_output] does the
    same with [out_embed]. *)
Theorem forward_input_output_rows (self : SkipGramNeg) (words : tensor Z) :
  wf_model self ->
  Forall (fun i => (0 <= i < Z.of_nat (n_vocab self))%Z) (data words) ->
  exists t_in t_out : tensor R,
    forward_input words self = dret (Ok t_in, self)
    /\ forward_output words self = dret (Ok t_out, self)
    /\ shape t_in = shape words ++ [n_embed self]
    /\ shape t_out = shape words ++ [n_embed self]
    /\ length (data t_in) = length (data words) * n_embed self
    /\ length (data t_out) = length (data words) * n_embed self
    /\ forall k, k < length (data words) ->
         chunk k (n_embed self) (data t_in)
         = row (in_embed self) (Z.to_nat (nth k (data words) 0%Z))
         /\ chunk k (n_embed self) (data t_out)
            = row (out_embed self) (Z.to_nat (nth k (data words) 0%Z)).
Proof.
  intros (HVi & HEi & Hwi & HVo & HEo & Hwo) Hin.
  destruct (@embedding_rows (in_embed self) words Hwi)
    as (t_in & Hrun_i & Hs_i & _ & Hl_i & Hrow_i); [now rewrite HVi|].
  destruct (@embedding_rows (out_embed self) words Hwo)
    as (t_out & Hrun_o & Hs_o & _ & Hl_o & Hrow_o); [now rewrite HVo|].
  exists t_in, t_out.
  rewrite forward_input_run, forward_output_run, Hrun_i, Hrun_o.
  rewrite HEi in *. rewrite HEo in *.
  repeat split; auto.
Qed.

Lemma forward_input_output_rows_witness :
  (wf_model example_model
   /\ Forall (fun i => (0 <= i < Z.of_nat (n_vocab example_model))%Z)
             (data example_words))
  /\ exists t_in t_out : tensor R,
       forward_input example_words example_model = dret (Ok t_in, example_model)
       /\ forward_output example_words example_model
          = dret (Ok t_out, example_model)
       /\ chunk 0 2 (data t_in) = [3%R; 4%R]
       /\ chunk 1 2 (data t_out) = [5%R; 6%R].
Proof.
  assert (Hwf : wf_model example_model) by (apply init_wf; reflexivity).
  assert (Hin : Forall (fun i => (0 <= i < Z.of_nat (n_vocab example_model))%Z)
                       (data example_words))
    by (repeat constructor; simpl; lia).
  split; [split; assumption|].
  destruct (@forward_input_output_rows example_model example_words Hwf Hin)
    as (t_in & t_out & H1 & H2 & _ & _ & _ & _ & Hrows).
  exists t_in, t_out. repeat split; try assumption.
  - apply (Hrows 0). simpl. lia.
  - apply (Hrows 1). simpl. lia.
Defined.

(** C6 does not hold as stated: asked for a batch of size 0, [forward_noise]
    fails with the sampler's "cannot sample n_sample <= 0 samples", which
    reports neither mismatched shapes nor an index out of range. *)
Lemma forward_noise_other_failure :
  forward_noise 0 2 example_model
  = dret (Err InvalidSampleCount, example_model)
  /\ ~ fails_only (fun e => is_shape_error e || is_index_error e)
         (forward_noise 0 2 example_model).
Proof.
  assert (H : forward_noise 0 2 example_model
              = dret (Err InvalidSampleCount, example_model)).
  { unfold forward_noise. apply bind_err_run.
    apply forward_noise_words_bad_count. lia. }
  split; [exact H|].
  rewrite H. unfold fails_only, dret. intros HF.
  inversion HF as [|? ? Hhd _]. simpl in Hhd. discriminate Hhd.
Qed.

(** C6, amended. The operations raise nothing of their own and handle
    nothing; a failure is an error of a library call that is passed on:
    [forward_input] and [forward_output] can only fail with an index out of
    range, the loss's [forward] only with a shape or dimension error, and
    [forward_noise] with the sampler's "invalid sample count" exactly when
    [batch_size * n_samples <= 0], with its "too many categories" exactly
    when that product is positive and there are more than 2^24 noise
    weights, with its "invalid distribution" exactly when the sampler gets
    that far and the noise weights are not a distribution, and otherwise
    only with an index or a shape error. On in-range indices, on
    well-shaped tensors, and for [batch_size, n_samples >= 1] with at most
    2^24 noise weights that form a distribution over the vocabulary, each
    operation returns a value. *)
Theorem failures_are_library_errors (self : SkipGramNeg) (words : tensor Z)
    (iv ov nv : tensor R) (batch_size n_samples : Z) :
  fails_only is_index_error (forward_input words self)
  /\ fails_only is_index_error (forward_output words self)
  /\ fails_only is_shape_error (forward iv ov nv self)
  /\ fails_only (noise_error_allowed self batch_size n_samples)
                (forward_noise batch_size n_samples self)
  /\ (wf_model self ->
      Forall (fun i => (0 <= i < Z.of_nat (n_vocab self))%Z) (data words) ->
      succeeds (forward_input words self)
      /\ succeeds (forward_output words self))
  /\ (forall B n E,
        shape iv = [B; E] -> shape ov = [B; E] -> shape nv = [B; n; E] ->
        wf_tensor iv -> wf_tensor ov ->
        succeeds (forward iv ov nv self))
  /\ (wf_model self ->
      (1 <= batch_size)%Z -> (1 <= n_samples)%Z ->
      (Z.of_nat (length (noise_weights self)) <= max_categories)%Z ->
      Forall (fun x => (0 <= x)%R) (noise_weights self) ->
      (0 < sum_list (noise_weights self))%R ->
      length (noise_weights self) <= n_vocab self ->
      succeeds (forward_noise batch_size n_samples self)).
Proof.
  repeat apply conj.
  - rewrite forward_input_run. repeat constructor. simpl.
    destruct (embedding _ _) eqn:E; [exact I|].
    apply embedding_err in E. now subst.
  - rewrite forward_output_run. repeat constructor. simpl.
    destruct (embedding _ _) eqn:E; [exact I|].
    apply embedding_err in E. now subst.
  - unfold forward, lift. repeat constructor. simpl.
    destruct (loss_of iv ov nv) eqn:E; [exact I|].
    now apply loss_of_err in E.
  - apply forward_noise_errors.
  - intros (HVi & _ & _ & HVo & _ & _) Hin.
    destruct (@embedding_ok (in_embed self) words) as [t_in H1];
      [now rewrite HVi|].
    destruct (@embedding_ok (out_embed self) words) as [t_out H2];
      [now rewrite HVo|].
    rewrite forward_input_run, forward_output_run, H1, H2.
    split; (split; [discriminate | repeat constructor]).
  - intros B n E Hiv Hov Hnv Wiv Wov. unfold forward, lift.
    rewrite loss_of_value with (B := B) (n := n) (E := E) by assumption.
    split; [discriminate | repeat constructor].
  - intros Hwf Hb Hn Hc Hall Hsum Hlen.
    assert (Hv : valid_weights (noise_weights self) = true)
      by now apply valid_weights_true.
    rewrite forward_noise_valid_run
      by (try assumption; now apply few_categories).
    split.
    + intros Hnil. apply map_eq_nil in Hnil. revert Hnil.
      apply draws_nonempty. now apply valid_weights_nonempty.
    + apply Forall_forall. intros o Ho. apply in_map_iff in Ho.
      destruct Ho as [pl [<- _]]. exact I.
Qed.

Lemma failures_are_library_errors_witness :
  (wf_model example_model
   /\ Forall (fun i => (0 <= i < Z.of_nat (n_vocab example_model))%Z)
             (data example_words)
   /\ (1 <= 1)%Z /\ (1 <= 2)%Z
   /\ (Z.of_nat (length (noise_weights example_model)) <= max_categories)%Z
   /\ Forall (fun x => (0 <= x)%R) (noise_weights example_model)
   /\ (0 < sum_list (noise_weights example_model))%R
   /\ length (noise_weights example_model) <= n_vocab example_model)
  /\ succeeds (forward_input example_words example_model)
  /\ succeeds (forward_output example_words example_model)
  /\ succeeds (forward example_input example_output example_noise example_model)
  /\ succeeds (forward_noise 1 2 example_model).
Proof.
  assert (H0 : wf_model example_model) by (apply init_wf; reflexivity).
  assert (Hin : Forall (fun i => (0 <= i < Z.of_nat (n_vocab example_model))%Z)
                       (data example_words))
    by (repeat constructor; simpl; lia).
  assert (H1 : (1 <= 1)%Z) by lia.
  assert (H2 : (1 <= 2)%Z) by lia.
  assert (Hc : (Z.of_nat (length (noise_weights example_model))
                <= max_categories)%Z)
    by (unfold max_categories; simpl; lia).
  assert (H3 : Forall (fun x => (0 <= x)%R) (noise_weights example_model))
    by (repeat constructor; lra).
  assert (H4 : (0 < sum_list (noise_weights example_model))%R)
    by (simpl; lra).
  assert (H5 : length (noise_weights example_model) <= n_vocab example_model)
    by (simpl; lia).
  split; [repeat split; assumption|].
  destruct (failures_are_library_errors example_model example_words
              example_input example_output example_noise 1 2)
    as (_ & _ & _ & _ & Hio & Hloss & Hnoise).
  destruct (Hio H0 Hin) as [Hi Ho].
  repeat split; try apply Hi; try apply Ho;
    try apply (Hloss 2 1 2 eq_refl eq_refl eq_refl eq_refl eq_refl);
    apply (Hnoise H0 H1 H2 Hc H3 H4 H5).
Defined.

(** C7. No forward operation changes the model: in every outcome of
    [forward_input], [forward_output], [forward_noise] and of the loss's
    [forward], the object left behind is the object the call started on,
    so [n_vocab], [n_embed], [noise_dist] (also when it is [None]) and both
    weight tables are what they were. *)
Theorem forward_calls_read_only (self : SkipGramNeg)
    (words : tensor Z) (batch_size n_samples : Z) (iv ov nv : tensor R) :
  Forall (fun o => snd (snd o) = self) (forward_input words self)
  /\ Forall (fun o => snd (snd o) = self) (forward_output words self)
  /\ Forall (fun o => snd (snd o) = self)
            (forward_noise batch_size n_samples self)
  /\ Forall (fun o => snd (snd o) = self) (forward iv ov nv self).
Proof.
  repeat split.
  - apply read_only_forward_input.
  - apply read_only_forward_output.
  - apply read_only_forward_noise.
  - apply (read_only_lift (loss_of iv ov nv)).
Qed.

(** C8 does not hold as stated: for [batch_size = 1] and [n_samples = 2],
    a model built by [__init__] with an all-zero noise distribution makes
    the sampler refuse the distribution, and [forward_noise] returns no
    tensor. *)
Lemma forward_noise_fails_on_zero_weights :
  wf_model zero_noise_model /\ (1 <= 1)%Z /\ (1 <= 2)%Z
  /\ forward_noise 1 2 zero_noise_model
     = dret (Err InvalidDistribution, zero_noise_model)
  /\ ~ (exists (p : R) (t : tensor R) (s' : SkipGramNeg),
          In (p, (Ok t, s')) (forward_noise 1 2 zero_noise_model)).
Proof.
  assert (H : forward_noise 1 2 zero_noise_model
              = dret (Err InvalidDistribution, zero_noise_model)).
  { apply forward_noise_bad_weights; [lia | reflexivity |].
    unfold valid_weights, noise_weights. simpl.
    destruct (Rlt_dec 0 (0 + (0 + 0))) as [H|H]; [lra|].
    now rewrite andb_false_r. }
  split; [apply init_wf; reflexivity|].
  split; [lia|]. split; [lia|]. split; [exact H|].
  rewrite H. intros (p & t & s' & [Hin|[]]). discriminate Hin.
Qed.

(** C8, amended. For [batch_size >= 1] and [n_samples >= 1], on a model
    built by [__init__] whose noise weights (the noise distribution, or the
    all-ones vector when there is none) are non-negative, of positive total,
    and at most [n_vocab] and at most 2^24 in number, every outcome of
    [forward_noise] is a tensor of shape (batch_size, n_samples, n_embed)
    whose storage is the concatenation of the rows of [out_embed] for the
    sampled indices in sampling order: the slice [b][s] is the row of the
    sampled index number [b * n_samples + s]. *)
Theorem forward_noise_shape_rows (self : SkipGramNeg)
    (batch_size n_samples : Z) :
  wf_model self ->
  (1 <= batch_size)%Z -> (1 <= n_samples)%Z ->
  (Z.of_nat (length (noise_weights self)) <= max_categories)%Z ->
  Forall (fun x => (0 <= x)%R) (noise_weights self) ->
  (0 < sum_list (noise_weights self))%R ->
  length (noise_weights self) <= n_vocab self ->
  forward_noise batch_size n_samples self
  = map (fun pl => (fst pl,
           (Ok (mkTensor [Z.to_nat batch_size; Z.to_nat n_samples; n_embed self]
                         (flat_map (row (out_embed self)) (snd pl))), self)))
        (draws (noise_weights self) (Z.to_nat batch_size * Z.to_nat n_samples))
  /\ draws (noise_weights self) (Z.to_nat batch_size * Z.to_nat n_samples) <> []
  /\ forall p l,
       In (p, l) (draws (noise_weights self)
                        (Z.to_nat batch_size * Z.to_nat n_samples)) ->
       length l = Z.to_nat batch_size * Z.to_nat n_samples
       /\ forall b s, b < Z.to_nat batch_size -> s < Z.to_nat n_samples ->
            nth (b * Z.to_nat n_samples + s) l 0 < n_vocab self
            /\ chunk (b * Z.to_nat n_samples + s) (n_embed self)
                     (flat_map (row (out_embed self)) l)
               = row (out_embed self) (nth (b * Z.to_nat n_samples + s) l 0).
Proof.
  intros Hwf Hb Hn Hc Hall Hsum Hlen.
  assert (Hv : valid_weights (noise_weights self) = true)
    by now apply valid_weights_true.
  assert (Hsupp : forall p l,
             In (p, l) (draws (noise_weights self)
                              (Z.to_nat batch_size * Z.to_nat n_samples)) ->
             length l = Z.to_nat batch_size * Z.to_nat n_samples
             /\ Forall (fun i => i < n_vocab self) l).
  { intros p l Hin. apply draws_support in Hin. destruct Hin as [Hl Hr].
    split; [assumption|].
    now apply Forall_lt_le with (a := length (noise_weights self)). }
  split; [|split].
  - apply forward_noise_valid_run; try assumption. now apply few_categories.
  - apply draws_nonempty. now apply valid_weights_nonempty.
  - intros p l Hin. destruct (Hsupp p l Hin) as [Hl Hr].
    split; [assumption|]. intros b s Hlb Hls.
    assert (Hk : b * Z.to_nat n_samples + s < length l) by (rewrite Hl; nia).
    split.
    + rewrite Forall_forall in Hr. apply Hr. now apply nth_In.
    + now apply noise_slices.
Qed.

Lemma forward_noise_shape_rows_witness :
  (wf_model example_model /\ (1 <= 1)%Z /\ (1 <= 2)%Z
   /\ (Z.of_nat (length (noise_weights example_model)) <= max_categories)%Z
   /\ Forall (fun x => (0 <= x)%R) (noise_weights example_model)
   /\ (0 < sum_list (noise_weights example_model))%R
   /\ length (noise_weights example_model) <= n_vocab example_model)
  /\ forward_noise 1 2 example_model
     = map (fun pl => (fst pl,
              (Ok (mkTensor [1; 2; 2]
                     (flat_map (row (out_embed example_model)) (snd pl))),
               example_model)))
           (draws [1%R; 3%R] 2).
Proof.
  assert (H0 : wf_model example_model) by (apply init_wf; reflexivity).
  assert (H1 : (1 <= 1)%Z) by lia.
  assert (H2 : (1 <= 2)%Z) by lia.
  assert (Hc : (Z.of_nat (length (noise_weights example_model))
                <= max_categories)%Z)
    by (unfold max_categories; simpl; lia).
  assert (H3 : Forall (fun x => (0 <= x)%R) (noise_weights example_model))
    by (repeat constructor; lra).
  assert (H4 : (0 < sum_list (noise_weights example_model))%R)
    by (simpl; lra).
  assert (H5 : length (noise_weights example_model) <= n_vocab example_model)
    by (simpl; lia).
  split; [repeat split; assumption|].
  apply (@forward_noise_shape_rows example_model 1 2 H0 H1 H2 Hc H3 H4 H5).
Defined.

(** C9 does not hold as stated: built without a noise distribution over a
    vocabulary of 2^24 + 1 words, the model makes the sampler refuse the
    all-ones vector for having too many categories, and [forward_noise],
    asked for one noise word, samples nothing. *)
Lemma no_uniform_draw_for_large_vocab :
  wf_model large_vocab_model
  /\ noise_dist large_vocab_model = None
  /\ forward_noise 1 1 large_vocab_model
     = dret (Err TooManyCategories, large_vocab_model)
  /\ ~ (exists (p : R) (t : tensor R) (s' : SkipGramNeg),
          In (p, (Ok t, s')) (forward_noise 1 1 large_vocab_model)).
Proof.
  assert (H : forward_noise 1 1 large_vocab_model
              = dret (Err TooManyCategories, large_vocab_model)).
  { apply forward_noise_too_many; [lia|]. exact large_vocab_too_many. }
  split; [apply large_vocab_wf|]. split; [reflexivity|].
  split; [exact H|].
  rewrite H. intros (p & t & s' & [Hin|[]]). discriminate Hin.
Qed.

(** C9, amended. When the model was built with [noise_dist = None],
    [forward_noise] samples from the all-ones weight vector of length
    [n_vocab]. Whenever the sampler accepts the request (a positive number
    [batch_size * n_samples] of samples and a vocabulary of at least 1 and
    at most 2^24 words) the sampling is uniform over the whole vocabulary:
    the outcomes of [forward_noise] are, one for one, the sequences of
    [batch_size * n_samples] draws from the all-ones vector followed by the
    lookup of lines 90-92, every outcome has the same probability
    [(1 / n_vocab) ^ (batch_size * n_samples)], and a single draw gives each
    of the [n_vocab] indices with probability [1 / n_vocab]. When the
    sampler refuses the request, [forward_noise] ends in the sampler's
    error. *)
Theorem uniform_noise_when_none (self : SkipGramNeg)
    (batch_size n_samples : Z) :
  noise_dist self = None ->
  noise_weights self = repeat 1%R (n_vocab self)
  /\ ((batch_size * n_samples <= 0)%Z ->
      forward_noise batch_size n_samples self
      = dret (Err InvalidSampleCount, self))
  /\ ((0 < batch_size * n_samples)%Z ->
      (max_categories < Z.of_nat (n_vocab self))%Z ->
      forward_noise batch_size n_samples self
      = dret (Err TooManyCategories, self))
  /\ ((0 < batch_size * n_samples)%Z -> n_vocab self = 0 ->
      forward_noise batch_size n_samples self
      = dret (Err InvalidDistribution, self))
  /\ ((0 < batch_size * n_samples)%Z ->
      1 <= n_vocab self -> (Z.of_nat (n_vocab self) <= max_categories)%Z ->
      forward_noise batch_size n_samples self
      = map (fun pl => (fst pl,
               (noise_vectors_of self batch_size n_samples
                  (mkTensor [Z.to_nat (batch_size * n_samples)]
                            (map Z.of_nat (snd pl))), self)))
            (draws (repeat 1%R (n_vocab self))
                   (Z.to_nat (batch_size * n_samples)))
      /\ Forall (fun o => fst o
                   = ((/ INR (n_vocab self))
                        ^ Z.to_nat (batch_size * n_samples))%R)
                (forward_noise batch_size n_samples self)
      /\ (forall i, i < n_vocab self ->
            prob (Nat.eqb i) (categorical (repeat 1%R (n_vocab self)))
            = (/ INR (n_vocab self))%R)
      /\ forall ws : list nat,
           length ws = Z.to_nat (batch_size * n_samples) ->
           Forall (fun i => i < n_vocab self) ws ->
           prob (same_draws ws)
                (draws (repeat 1%R (n_vocab self))
                       (Z.to_nat (batch_size * n_samples)))
           = ((/ INR (n_vocab self)) ^ Z.to_nat (batch_size * n_samples))%R).
Proof.
  intros Hnd.
  assert (Hw : noise_weights self = torch_ones (n_vocab self))
    by (unfold noise_weights; now rewrite Hnd).
  assert (Hlenw : length (torch_ones (n_vocab self)) = n_vocab self)
    by apply repeat_length.
  split; [exact Hw|]. split; [|split; [|split]].
  - intros Hk. now apply forward_noise_bad_count.
  - intros Hk Hc. apply forward_noise_too_many; [assumption|].
    rewrite Hw. unfold too_many_categories. rewrite Hlenw.
    now apply Z.ltb_lt.
  - intros Hk H0. apply forward_noise_bad_weights; [assumption | |].
    + rewrite Hw, H0. reflexivity.
    + rewrite Hw, H0. unfold valid_weights. simpl.
      destruct (Rlt_dec 0 0) as [H|H]; [lra | reflexivity].
  - intros Hk HV Hc.
    assert (Hc' : too_many_categories (noise_weights self) = false)
      by (rewrite Hw; apply few_categories; now rewrite Hlenw).
    assert (Hv : valid_weights (noise_weights self) = true)
      by (rewrite Hw; now apply valid_weights_ones).
    assert (Hrun := @forward_noise_run self batch_size n_samples Hk Hc' Hv). rewrite Hw in Hrun.
    fold (torch_ones (n_vocab self)).
    split; [exact Hrun|]. split; [|split].
    + rewrite Hrun. apply Forall_forall. intros o Ho.
      apply in_map_iff in Ho. destruct Ho as [[p l] [<- Hin]]. simpl.
      destruct (draws_support _ _ _ _ Hin) as [Hl Hr].
      rewrite (draws_outcome_prob _ _ _ _ Hin).
      rewrite Hlenw in Hr. rewrite seq_prob_ones by assumption.
      now rewrite Hl.
    + intros i Hi. unfold prob, categorical. rewrite map_tab. simpl.
      rewrite sum_list_tab, Hlenw.
      rewrite rsum_ext with (g := fun j => if Nat.eq_dec j i
                                   then (/ INR (n_vocab self))%R else 0%R).
      * now apply rsum_indicator.
      * intros j Hj. rewrite nth_ones, sum_list_ones by assumption.
        destruct (Nat.eq_dec j i) as [->|Hne].
        -- rewrite Nat.eqb_refl. unfold Rdiv. now rewrite Rmult_1_l.
        -- replace (i =? j) with false by (symmetry; apply Nat.eqb_neq; lia).
           reflexivity.
    + intros ws Hlen Hall. rewrite <- Hlen.
      rewrite prob_draws by now rewrite Hlenw.
      now apply seq_prob_ones.
Qed.

Lemma uniform_noise_when_none_witness :
  (noise_dist example_model_uniform = None
   /\ (0 < 1 * 2)%Z /\ 1 <= n_vocab example_model_uniform
   /\ (Z.of_nat (n_vocab example_model_uniform) <= max_categories)%Z)
  /\ Forall (fun o => fst o = ((/ INR 2) ^ 2)%R)
            (forward_noise 1 2 example_model_uniform).
Proof.
  assert (H2 : 1 <= n_vocab example_model_uniform) by (simpl; lia).
  assert (H3 : (0 < 1 * 2)%Z) by lia.
  assert (H4 : (Z.of_nat (n_vocab example_model_uniform) <= max_categories)%Z)
    by (unfold max_categories; simpl; lia).
  split; [repeat split; assumption|].
  destruct (@uniform_noise_when_none example_model_uniform 1 2 eq_refl)
    as (_ & _ & _ & _ & Hacc).
  destruct (Hacc H3 H2 H4) as (_ & Hall & _).
  exact Hall.
Defined.

(** C10. [NegativeSamplingLoss.forward] is deterministic: a call has a
    single outcome, of probability 1, and its value is the same in any two
    calls on the same three tensors, whatever objects the calls run on. *)
Theorem forward_deterministic (iv ov nv : tensor R)
    (S1 S2 : Type) (s1 : S1) (s2 : S2) :
  exists r : result (tensor R),
    forward iv ov nv s1 = [(1%R, (r, s1))]
    /\ forward iv ov nv s2 = [(1%R, (r, s2))].
Proof.
  exists (loss_of iv ov nv). split; reflexivity.
Qed.

(** * Further properties of the code *)

(** ** Lookups out of range *)

Lemma in_range_forallb_iff (V : nat) (l : list Z) :
  forallb (fun i => (0 <=? i)%Z && (i <? Z.of_nat V)%Z) l = true
  <-> Forall (fun i => (0 <= i < Z.of_nat V)%Z) l.
Proof.
  rewrite forallb_forall, Forall_forall. split; intros H i Hi.
  - specialize (H i Hi). apply andb_prop in H. destruct H as [H1 H2].
    apply Z.leb_le in H1. apply Z.ltb_lt in H2. lia.
  - apply andb_true_intro. specialize (H i Hi).
    split; [apply Z.leb_le | apply Z.ltb_lt]; lia.
Qed.

Lemma embedding_ok_iff (emb : Embedding) (input : tensor Z) :
  (exists t, embedding emb input = Ok t)
  <-> Forall (fun i => (0 <= i < Z.of_nat (num_embeddings emb))%Z) (data input).
Proof.
  rewrite <- in_range_forallb_iff. unfold embedding.
  destruct (forallb _ _); split.
  - reflexivity.
  - intros _. eexists. reflexivity.
  - intros [t H]. discriminate H.
  - discriminate.
Qed.

Lemma forallb_false_Exists {A} (f : A -> bool) (l : list A) :
  forallb f l = false <-> Exists (fun x => f x = false) l.
Proof.
  induction l as [|x l IH]; simpl.
  - split; [discriminate | intros H; inversion H].
  - rewrite andb_false_iff, IH. split.
    + intros [H|H]; [now left | now right].
    + intros H. inversion H; subst; [now left | now right].
Qed.

Lemma embedding_err_iff (emb : Embedding) (input : tensor Z) :
  embedding emb input = Err IndexOutOfRange
  <-> Exists (fun i => (i < 0 \/ Z.of_nat (num_embeddings emb) <= i)%Z)
             (data input).
Proof.
  unfold embedding.
  destruct (forallb _ _) eqn:E.
  - split; [discriminate|]. intros H. exfalso.
    rewrite forallb_forall in E. apply Exists_exists in H.
    destruct H as [i [Hi Hout]]. specialize (E i Hi).
    apply andb_prop in E. destruct E as [E1 E2].
    apply Z.leb_le in E1. apply Z.ltb_lt in E2. lia.
  - split; [intros _ | reflexivity].
    apply forallb_false_Exists in E.
    eapply Exists_impl; [|exact E]. intros i Hi. simpl in Hi.
    apply andb_false_iff in Hi. destruct Hi as [Hi|Hi].
    + apply Z.leb_gt in Hi. lia.
    + apply Z.ltb_ge in Hi. lia.
Qed.

(** X1. [forward_input] and [forward_output] fail exactly when some index
    is negative or not below [n_vocab]; the failure is the library's
    index-out-of-range error, raised with certainty, and the model is left
    as it was. Otherwise they return a value. *)
Theorem lookup_fails_iff_out_of_range (self : SkipGramNeg) (words : tensor Z) :
  wf_model self ->
  (forward_input words self = dret (Err IndexOutOfRange, self)
   <-> Exists (fun i => (i < 0 \/ Z.of_nat (n_vocab self) <= i)%Z) (data words))
  /\ (forward_output words self = dret (Err IndexOutOfRange, self)
      <-> Exists (fun i => (i < 0 \/ Z.of_nat (n_vocab self) <= i)%Z)
                 (data words))
  /\ ((exists t, forward_input words self = dret (Ok t, self))
      <-> Forall (fun i => (0 <= i < Z.of_nat (n_vocab self))%Z) (data words))
  /\ ((exists t, forward_output words self = dret (Ok t, self))
      <-> Forall (fun i => (0 <= i < Z.of_nat (n_vocab self))%Z) (data words)).
Proof.
  intros (HVi & _ & _ & HVo & _ & _).
  rewrite forward_input_run, forward_output_run. unfold dret.
  split; [|split; [|split]].
  - rewrite <- HVi, <- embedding_err_iff.
    split; intros H; [now inversion H | now rewrite H].
  - rewrite <- HVo, <- embedding_err_iff.
    split; intros H; [now inversion H | now rewrite H].
  - rewrite <- HVi, <- embedding_ok_iff.
    split; intros [t H]; exists t; [now inversion H | now rewrite H].
  - rewrite <- HVo, <- embedding_ok_iff.
    split; intros [t H]; exists t; [now inversion H | now rewrite H].
Qed.

Lemma lookup_fails_iff_out_of_range_witness :
  wf_model example_model
  /\ forward_input (mkTensor [2] [0%Z; (-1)%Z]) example_model
     = dret (Err IndexOutOfRange, example_model)
  /\ forward_output (mkTensor [1] [2%Z]) example_model
     = dret (Err IndexOutOfRange, example_model).
Proof.
  assert (Hwf : wf_model example_model) by (apply init_wf; reflexivity).
  destruct (@lookup_fails_iff_out_of_range example_model
              (mkTensor [2] [0%Z; (-1)%Z]) Hwf) as (H1 & _).
  destruct (@lookup_fails_iff_out_of_range example_model
              (mkTensor [1] [2%Z]) Hwf) as (_ & H2 & _).
  split; [exact Hwf|]. split.
  - apply H1. simpl. right. left. lia.
  - apply H2. simpl. left. lia.
Defined.

(** ** Sizes for which [forward_noise] can return *)

Lemma view_both_negative {A} (t : tensor A) (b n : Z) (E : nat) :
  (b <= -1)%Z -> (n <= -1)%Z ->
  view t [b; n; Z.of_nat E] = Err ShapeMismatch.
Proof.
  intros Hb Hn. unfold view. cbn [existsb].
  destruct (b <? -1)%Z eqn:Eb; [reflexivity|].
  destruct (n <? -1)%Z eqn:En; [reflexivity|].
  apply Z.ltb_ge in Eb. apply Z.ltb_ge in En.
  assert (b = (-1)%Z) by lia. assert (n = (-1)%Z) by lia. subst.
  replace (Z.of_nat E <? -1)%Z with false by (symmetry; apply Z.ltb_ge; lia).
  cbn [orb filter Z.eqb].
  replace (Z.of_nat E =? -1)%Z with false by (symmetry; apply Z.eqb_neq; lia).
  reflexivity.
Qed.

(** X3. [forward_noise] can return a value only when [batch_size >= 1],
    [n_samples >= 1] and the noise weights form a distribution: a product
    [batch_size * n_samples <= 0] is refused by the sampler, and two negative
    sizes, whose product is positive, are sampled for and then refused by
    the reshaping. *)
Theorem forward_noise_value_needs_sizes (self : SkipGramNeg)
    (batch_size n_samples : Z) (p : R) (t : tensor R) (s' : SkipGramNeg) :
  In (p, (Ok t, s')) (forward_noise batch_size n_samples self) ->
  (1 <= batch_size)%Z /\ (1 <= n_samples)%Z
  /\ valid_weights (noise_weights self) = true.
Proof.
  intros Hin.
  destruct (Z.leb_spec (batch_size * n_samples) 0) as [Hk|Hk].
  - rewrite forward_noise_bad_count in Hin by assumption.
    destruct Hin as [Hin|[]]. discriminate Hin.
  - destruct (too_many_categories (noise_weights self)) eqn:Hc.
    { rewrite forward_noise_too_many in Hin by assumption.
      destruct Hin as [Hin|[]]. discriminate Hin. }
    destruct (valid_weights (noise_weights self)) eqn:Hw.
    + rewrite forward_noise_run in Hin by assumption.
      apply in_map_iff in Hin. destruct Hin as [[q l] [Heq _]].
      simpl in Heq. inversion Heq as [[Hp Hr Hs]].
      unfold noise_vectors_of, rbind in Hr.
      destruct (embedding _ _) as [lu|e]; [|discriminate Hr].
      destruct (Z.le_gt_cases 1 batch_size) as [Hb|Hb].
      * split; [assumption|]. split; [|reflexivity].
        destruct (Z.le_gt_cases 1 n_samples) as [Hn|Hn]; [assumption|].
        exfalso.
        pose proof (Z.mul_nonneg_nonpos batch_size n_samples). lia.
      * exfalso.
        assert (Hb0 : batch_size <> 0%Z) by (intros ->; lia).
        assert (Hb' : (batch_size <= -1)%Z) by lia.
        assert (Hn' : (n_samples <= -1)%Z).
        { destruct (Z.le_gt_cases n_samples (-1)) as [Hn|Hn]; [assumption|].
          exfalso.
          pose proof (Z.mul_nonpos_nonneg batch_size n_samples). lia. }
        rewrite view_both_negative in Hr by assumption. discriminate Hr.
    + rewrite forward_noise_bad_weights in Hin by assumption.
      destruct Hin as [Hin|[]]. discriminate Hin.
Qed.

Lemma forward_noise_value_needs_sizes_witness :
  exists (p : R) (t : tensor R),
    In (p, (Ok t, example_model)) (forward_noise 1 1 example_model)
    /\ (1 <= 1)%Z /\ (1 <= 1)%Z
    /\ valid_weights (noise_weights example_model) = true.
Proof.
  destruct forward_noise_two_outcomes as (p1 & _ & t1 & _ & H & _).
  exists p1, t1. split; [exact H|].
  exact (@forward_noise_value_needs_sizes example_model 1 1 p1 t1
           example_model H).
Defined.

(** ** More on the distribution of the noise words *)

Lemma seq_prob_nonneg (w : list R) (l : list nat) :
  Forall (fun x => (0 <= x)%R) w -> (0 < sum_list w)%R ->
  (0 <= seq_prob w l)%R.
Proof.
  intros Hall Hsum. induction l as [|i l IH]; simpl; [lra|].
  apply Rmult_le_pos; [|assumption].
  apply Rmult_le_pos.
  - destruct (Nat.lt_ge_cases i (length w)) as [Hi|Hi].
    + rewrite Forall_forall in Hall. apply Hall. now apply nth_In.
    + rewrite nth_overflow by assumption. lra.
  - left. now apply Rinv_0_lt_compat.
Qed.

Lemma seq_prob_zero (w : list R) (l : list nat) (i : nat) :
  In i l -> nth i w 0%R = 0%R -> seq_prob w l = 0%R.
Proof.
  intros Hin Hz. induction l as [|j l IH]; [destruct Hin|].
  rewrite seq_prob_cons. destruct Hin as [->|Hin].
  - rewrite Hz. unfold Rdiv. now rewrite !Rmult_0_l.
  - rewrite IH by assumption. now rewrite Rmult_0_r.
Qed.

Lemma prob_mono {A} (P Q : A -> bool) (d : dist A) :
  Forall (fun pa => (0 <= fst pa)%R) d ->
  (forall a, P a = true -> Q a = true) ->
  (prob P d <= prob Q d)%R.
Proof.
  intros Hnn Himp. unfold prob.
  induction d as [|[p a] d IH]; simpl; [lra|].
  inversion Hnn as [|? ? Hp Hd]; subst. simpl in Hp.
  specialize (IH Hd).
  destruct (P a) eqn:EP.
  - rewrite (Himp a EP). lra.
  - destruct (Q a); lra.
Qed.

Lemma draws_nonneg (w : list R) (n : nat) :
  Forall (fun x => (0 <= x)%R) w -> (0 < sum_list w)%R ->
  Forall (fun pl => (0 <= fst pl)%R) (draws w n).
Proof.
  intros Hall Hsum. apply Forall_forall. intros [p l] Hin. simpl.
  rewrite (draws_outcome_prob _ _ _ _ Hin). now apply seq_prob_nonneg.
Qed.

Lemma seq_prob_repeat (w : list R) (i n : nat) :
  seq_prob w (repeat i n) = ((nth i w 0 / sum_list w) ^ n)%R.
Proof.
  induction n as [|n IH]; [reflexivity|].
  simpl repeat. rewrite seq_prob_cons, IH. reflexivity.
Qed.

Lemma forallb_ltb_Forall (V : nat) (l : list nat) :
  forallb (fun i => i <? V) l = true <-> Forall (fun i => i < V) l.
Proof.
  rewrite forallb_forall, Forall_forall.
  split; intros H i Hi; specialize (H i Hi);
    [now apply Nat.ltb_lt | now apply Nat.ltb_lt].
Qed.

Lemma noise_vectors_out_of_range (self : SkipGramNeg) (b n : Z)
      (sh : list nat) (l : list nat) :
  wf_model self ->
  forallb (fun i => i <? n_vocab self) l = false ->
  noise_vectors_of self b n (mkTensor sh (map Z.of_nat l))
  = Err IndexOutOfRange.
Proof.
  intros (_ & _ & _ & HV & _ & _) Hf. unfold noise_vectors_of.
  assert (H : embedding (out_embed self) (mkTensor sh (map Z.of_nat l))
              = Err IndexOutOfRange).
  { apply embedding_err_iff. simpl.
    apply forallb_false_Exists in Hf. apply Exists_exists in Hf.
    destruct Hf as [i [Hi Hlt]]. apply Nat.ltb_ge in Hlt.
    apply Exists_exists. exists (Z.of_nat i). split.
    - now apply in_map.
    - right. rewrite HV. lia. }
  now rewrite H.
Qed.

(** Whatever the length of the noise weights: a draw leads to the rows of
    its indices when they all are words of the vocabulary, and to an index
    error otherwise. *)
Lemma forward_noise_index_run (self : SkipGramNeg) (batch_size n_samples : Z) :
  wf_model self ->
  (1 <= batch_size)%Z -> (1 <= n_samples)%Z ->
  too_many_categories (noise_weights self) = false ->
  valid_weights (noise_weights self) = true ->
  forward_noise batch_size n_samples self
  = map (fun pl => (fst pl,
           (if forallb (fun i => i <? n_vocab self) (snd pl)
            then Ok (mkTensor [Z.to_nat batch_size; Z.to_nat n_samples;
                               n_embed self]
                              (flat_map (row (out_embed self)) (snd pl)))
            else Err IndexOutOfRange, self)))
        (draws (noise_weights self) (Z.to_nat batch_size * Z.to_nat n_samples)).
Proof.
  intros Hwf Hb Hn Hc Hv.
  assert (HN : Z.to_nat (batch_size * n_samples)
               = Z.to_nat batch_size * Z.to_nat n_samples)
    by (apply Z2Nat.inj_mul; lia).
  rewrite forward_noise_run by (assumption || nia). rewrite HN.
  apply map_ext_in. intros [p l] Hin. simpl.
  apply draws_support in Hin. destruct Hin as [Hl _].
  destruct (forallb (fun i => i <? n_vocab self) l) eqn:Ef.
  - rewrite <- HN. rewrite noise_vectors_rows; try assumption;
      [reflexivity | now rewrite HN | now apply forallb_ltb_Forall].
  - rewrite noise_vectors_out_of_range by assumption. reflexivity.
Qed.

(** X4. When the noise distribution, of at most 2^24 weights, gives
    positive weight to an index [i0 >= n_vocab] (it is longer than the
    vocabulary), [forward_noise] fails at random: a call for
    [batch_size, n_samples >= 1] ends in the library's index error exactly
    for the draws that contain an index outside the vocabulary, and this
    happens with probability at least
    [(w_i0 / sum w) ^ (batch_size * n_samples) > 0]. *)
Theorem long_noise_dist_fails_at_random (self : SkipGramNeg)
    (batch_size n_samples : Z) (i0 : nat) :
  wf_model self ->
  (1 <= batch_size)%Z -> (1 <= n_samples)%Z ->
  (Z.of_nat (length (noise_weights self)) <= max_categories)%Z ->
  Forall (fun x => (0 <= x)%R) (noise_weights self) ->
  (0 < sum_list (noise_weights self))%R ->
  n_vocab self <= i0 ->
  (0 < nth i0 (noise_weights self) 0)%R ->
  forward_noise batch_size n_samples self
  = map (fun pl => (fst pl,
           (if forallb (fun i => i <? n_vocab self) (snd pl)
            then Ok (mkTensor [Z.to_nat batch_size; Z.to_nat n_samples;
                               n_embed self]
                              (flat_map (row (out_embed self)) (snd pl)))
            else Err IndexOutOfRange, self)))
        (draws (noise_weights self) (Z.to_nat batch_size * Z.to_nat n_samples))
  /\ ((nth i0 (noise_weights self) 0 / sum_list (noise_weights self))
        ^ (Z.to_nat batch_size * Z.to_nat n_samples)
      <= prob index_failure (forward_noise batch_size n_samples self))%R
  /\ (0 < prob index_failure (forward_noise batch_size n_samples self))%R.
Proof.
  intros Hwf Hb Hn Hcat Hall Hsum Hi0 Hpos.
  assert (Hv : valid_weights (noise_weights self) = true)
    by now apply valid_weights_true.
  assert (Hc : too_many_categories (noise_weights self) = false)
    by now apply few_categories.
  assert (Hrun := forward_noise_index_run Hwf Hb Hn Hc Hv).
  set (N := Z.to_nat batch_size * Z.to_nat n_samples) in *.
  set (w := noise_weights self) in *.
  assert (HN : 1 <= N) by (unfold N; nia).
  assert (Hle : ((nth i0 w 0 / sum_list w) ^ N
                 <= prob index_failure (forward_noise batch_size n_samples self))%R).
  { rewrite Hrun.
    rewrite prob_map
      with (P := @index_failure SkipGramNeg (tensor R))
           (g := fun l => (if forallb (fun i => i <? n_vocab self) l
                           then Ok (mkTensor [Z.to_nat batch_size;
                                              Z.to_nat n_samples; n_embed self]
                                             (flat_map (row (out_embed self)) l))
                           else Err IndexOutOfRange, self)).
    rewrite <- seq_prob_repeat.
    assert (Hlt : i0 < length w).
    { destruct (Nat.lt_ge_cases i0 (length w)) as [H|H]; [assumption|].
      rewrite nth_overflow in Hpos by assumption. lra. }
    rewrite <- prob_draws
      by (apply Forall_forall; intros i Hi; apply repeat_spec in Hi; now subst).
    rewrite repeat_length.
    apply prob_mono; [now apply draws_nonneg|].
    intros l Hl. unfold same_draws in Hl.
    destruct (list_eq_dec Nat.eq_dec l (repeat i0 N)) as [->|]; [|discriminate].
    assert (Hf : forallb (fun i => i <? n_vocab self) (repeat i0 N) = false).
    { destruct N as [|N']; [lia|]. simpl.
      replace (i0 <? n_vocab self) with false
        by (symmetry; apply Nat.ltb_ge; assumption).
      reflexivity. }
    rewrite Hf. reflexivity. }
  split; [exact Hrun|]. split; [exact Hle|].
  eapply Rlt_le_trans; [|exact Hle].
  apply pow_lt. apply Rdiv_lt_0_compat; assumption.
Qed.

Lemma long_noise_dist_fails_at_random_witness :
  (wf_model long_noise_model /\ (1 <= 1)%Z /\ (1 <= 2)%Z
   /\ (Z.of_nat (length (noise_weights long_noise_model))
       <= max_categories)%Z
   /\ Forall (fun x => (0 <= x)%R) (noise_weights long_noise_model)
   /\ (0 < sum_list (noise_weights long_noise_model))%R
   /\ n_vocab long_noise_model <= 2
   /\ (0 < nth 2 (noise_weights long_noise_model) 0)%R)
  /\ (0 < prob index_failure (forward_noise 1 2 long_noise_model))%R.
Proof.
  assert (H0 : wf_model long_noise_model) by (apply init_wf; reflexivity).
  assert (H1 : (1 <= 1)%Z) by lia.
  assert (H2 : (1 <= 2)%Z) by lia.
  assert (Hc : (Z.of_nat (length (noise_weights long_noise_model))
                <= max_categories)%Z)
    by (unfold max_categories; simpl; lia).
  assert (H3 : Forall (fun x => (0 <= x)%R) (noise_weights long_noise_model))
    by (repeat constructor; lra).
  assert (H4 : (0 < sum_list (noise_weights long_noise_model))%R)
    by (simpl; lra).
  assert (H5 : n_vocab long_noise_model <= 2) by (simpl; lia).
  assert (H6 : (0 < nth 2 (noise_weights long_noise_model) 0)%R)
    by (simpl; lra).
  split; [repeat split; assumption|].
  apply (@long_noise_dist_fails_at_random long_noise_model 1 2 2
           H0 H1 H2 Hc H3 H4 H5 H6).
Defined.

Lemma prob_const {A} (c : bool) (d : dist A) :
  prob (fun _ => c) d = if c then prob (fun _ => true) d else 0%R.
Proof.
  destruct c; [reflexivity|].
  unfold prob. induction d as [|pa d IH]; simpl; [reflexivity|].
  rewrite IH. lra.
Qed.

Lemma categorical_weights_total (w : list R) :
  sum_list w <> 0%R ->
  rsum (length w) (fun j => (nth j w 0 / sum_list w)%R) = 1%R.
Proof.
  intros Hs. unfold Rdiv. rewrite rsum_scale.
  rewrite <- sum_list_tab, tab_nth. now apply Rinv_r.
Qed.

(** Each position of a sequence of independent draws is distributed like a
    single draw. *)
Lemma draws_marginal (w : list R) (n k i : nat) :
  sum_list w <> 0%R -> k < n -> i < length w ->
  prob (fun l => match nth_error l k with
                 | Some j => j =? i
                 | None => false
                 end) (draws w n)
  = (nth i w 0 / sum_list w)%R.
Proof.
  intros Hs. revert k. induction n as [|n IH]; intros k Hk Hi; [lia|].
  simpl draws. rewrite prob_dbind. unfold categorical. rewrite map_tab.
  simpl fst. simpl snd. rewrite sum_list_tab.
  destruct k as [|k].
  - rewrite rsum_ext with (g := fun j => if Nat.eq_dec j i
                                 then (nth j w 0 / sum_list w)%R else 0%R).
    + now rewrite rsum_indicator.
    + intros j Hj. rewrite dbind_dret_r, prob_map. simpl.
      rewrite prob_const, draws_total by assumption.
      destruct (Nat.eq_dec j i) as [->|Hne].
      * rewrite Nat.eqb_refl. lra.
      * replace (j =? i) with false by (symmetry; now apply Nat.eqb_neq). lra.
  - rewrite rsum_ext with (g := fun j => (nth j w 0 / sum_list w
                                          * (nth i w 0 / sum_list w))%R).
    + rewrite rsum_scale, categorical_weights_total by assumption. lra.
    + intros j Hj. rewrite dbind_dret_r, prob_map. simpl.
      rewrite IH by (assumption || lia). reflexivity.
Qed.

Lemma prob_mono_in {A} (P Q : A -> bool) (d : dist A) :
  Forall (fun pa => (0 <= fst pa)%R) d ->
  (forall p a, In (p, a) d -> P a = true -> Q a = true) ->
  (prob P d <= prob Q d)%R.
Proof.
  intros Hnn Himp. unfold prob.
  induction d as [|[p a] d IH]; simpl; [lra|].
  inversion Hnn as [|? ? Hp Hd]; subst. simpl in Hp.
  assert (IH' := IH Hd (fun q x Hx => Himp q x (or_intror Hx))).
  destruct (P a) eqn:EP.
  - rewrite (Himp p a (or_introl eq_refl) EP). lra.
  - destruct (Q a); lra.
Qed.

(** X5. Each noise vector is drawn according to the noise distribution.
    For [batch_size, n_samples >= 1], a model built by [__init__] and at
    most 2^24 noise weights that form a distribution over the vocabulary,
    the outcomes of [forward_noise] are the looked-up rows of
    [batch_size * n_samples] independent draws; in these draws every
    position [k] is the word [i] with probability [w_i / sum w], so that
    noise vector number [k] of the result is the row of word [i] with
    probability at least [w_i / sum w]. *)
Theorem noise_word_marginal (self : SkipGramNeg) (batch_size n_samples : Z)
    (k i : nat) :
  wf_model self ->
  (1 <= batch_size)%Z -> (1 <= n_samples)%Z ->
  (Z.of_nat (length (noise_weights self)) <= max_categories)%Z ->
  Forall (fun x => (0 <= x)%R) (noise_weights self) ->
  (0 < sum_list (noise_weights self))%R ->
  length (noise_weights self) <= n_vocab self ->
  k < Z.to_nat batch_size * Z.to_nat n_samples ->
  i < length (noise_weights self) ->
  forward_noise batch_size n_samples self
  = map (fun pl => (fst pl,
           (Ok (mkTensor [Z.to_nat batch_size; Z.to_nat n_samples; n_embed self]
                         (flat_map (row (out_embed self)) (snd pl))), self)))
        (draws (noise_weights self) (Z.to_nat batch_size * Z.to_nat n_samples))
  /\ prob (draw_is k i)
          (draws (noise_weights self)
                 (Z.to_nat batch_size * Z.to_nat n_samples))
     = (nth i (noise_weights self) 0 / sum_list (noise_weights self))%R
  /\ (nth i (noise_weights self) 0 / sum_list (noise_weights self)
      <= prob (slice_is_row self k i)
              (forward_noise batch_size n_samples self))%R.
Proof.
  intros Hwf Hb Hn Hcat Hall Hsum Hlen Hk Hi.
  assert (Hv : valid_weights (noise_weights self) = true)
    by now apply valid_weights_true.
  assert (Hc : too_many_categories (noise_weights self) = false)
    by now apply few_categories.
  assert (Hrun := @forward_noise_valid_run self batch_size n_samples
                    Hwf Hb Hn Hc Hv Hlen).
  assert (Hm : prob (draw_is k i)
                 (draws (noise_weights self)
                        (Z.to_nat batch_size * Z.to_nat n_samples))
               = (nth i (noise_weights self) 0
                  / sum_list (noise_weights self))%R).
  { unfold draw_is. apply draws_marginal; try assumption. lra. }
  split; [exact Hrun|]. split; [exact Hm|].
  rewrite <- Hm, Hrun.
  rewrite prob_map
    with (P := slice_is_row self k i)
         (g := fun l => (Ok (mkTensor [Z.to_nat batch_size;
                                       Z.to_nat n_samples; n_embed self]
                                      (flat_map (row (out_embed self)) l)),
                         self)).
  apply prob_mono_in; [now apply draws_nonneg|].
  intros p l Hin Hd. apply draws_support in Hin. destruct Hin as [Hl Hr].
  unfold draw_is in Hd. unfold slice_is_row. simpl.
  destruct (nth_error l k) as [j|] eqn:Ej; [|discriminate].
  apply Nat.eqb_eq in Hd. subst j.
  rewrite noise_slices; try assumption.
  - rewrite (nth_error_nth _ _ 0 Ej).
    destruct (list_eq_dec Req_dec_T _ _) as [_|Hne];
      [reflexivity | now contradiction Hne].
  - now apply Forall_lt_le with (a := length (noise_weights self)).
  - now rewrite Hl.
Qed.

Lemma noise_word_marginal_witness :
  (wf_model example_model /\ (1 <= 2)%Z /\ (1 <= 3)%Z
   /\ (Z.of_nat (length (noise_weights example_model)) <= max_categories)%Z
   /\ Forall (fun x => (0 <= x)%R) (noise_weights example_model)
   /\ (0 < sum_list (noise_weights example_model))%R
   /\ length (noise_weights example_model) <= n_vocab example_model
   /\ 4 < Z.to_nat 2 * Z.to_nat 3
   /\ 1 < length (noise_weights example_model))
  /\ (3 / sum_list [1; 3]
      <= prob (slice_is_row example_model 4 1)
              (forward_noise 2 3 example_model))%R.
Proof.
  assert (H0 : wf_model example_model) by (apply init_wf; reflexivity).
  assert (Hb : (1 <= 2)%Z) by lia.
  assert (Hn : (1 <= 3)%Z) by lia.
  assert (Hc : (Z.of_nat (length (noise_weights example_model))
                <= max_categories)%Z)
    by (unfold max_categories; simpl; lia).
  assert (H1 : Forall (fun x => (0 <= x)%R) (noise_weights example_model))
    by (repeat constructor; lra).
  assert (H2 : (0 < sum_list (noise_weights example_model))%R) by (simpl; lra).
  assert (H3 : length (noise_weights example_model) <= n_vocab example_model)
    by (simpl; lia).
  assert (H4 : 4 < Z.to_nat 2 * Z.to_nat 3) by (simpl; lia).
  assert (H5 : 1 < length (noise_weights example_model)) by (simpl; lia).
  split; [repeat split; assumption|].
  apply (@noise_word_marginal example_model 2 3 4 1
           H0 Hb Hn Hc H1 H2 H3 H4 H5).
Defined.

Lemma in_map_of_nat (i : nat) (l : list nat) :
  In (Z.of_nat i) (map Z.of_nat l) -> In i l.
Proof.
  intros H. apply in_map_iff in H. destruct H as [j [Hj Hin]].
  apply Nat2Z.inj in Hj. now subst.
Qed.

(** X6. A word whose noise weight is 0 is never used as a noise word:
    every outcome of the sampling whose index tensor contains it has
    probability 0, for all arguments of the call. *)
Theorem zero_weight_never_drawn (self : SkipGramNeg)
    (batch_size n_samples : Z) (i : nat) :
  nth i (noise_weights self) 0%R = 0%R ->
  Forall (fun o => forall t : tensor Z,
            fst (snd o) = Ok t -> In (Z.of_nat i) (data t) -> fst o = 0%R)
         (forward_noise_words batch_size n_samples self).
Proof.
  intros Hz.
  destruct (Z.leb_spec (batch_size * n_samples) 0) as [Hk|Hk].
  - rewrite forward_noise_words_bad_count by assumption.
    repeat constructor. simpl. intros t H. discriminate H.
  - destruct (too_many_categories (noise_weights self)) eqn:Hc.
    { rewrite forward_noise_words_too_many by assumption.
      repeat constructor. simpl. intros t H. discriminate H. }
    destruct (valid_weights (noise_weights self)) eqn:Hw.
    + rewrite forward_noise_words_run by assumption.
      apply Forall_forall. intros o Ho. apply in_map_iff in Ho.
      destruct Ho as [[p l] [<- Hin]]. simpl. intros t Ht Hi.
      inversion Ht; subst. simpl in Hi. apply in_map_of_nat in Hi.
      rewrite (draws_outcome_prob _ _ _ _ Hin).
      now apply seq_prob_zero with (i := i).
    + rewrite forward_noise_words_bad_weights by assumption.
      repeat constructor. simpl. intros t H. discriminate H.
Qed.

Lemma zero_weight_never_drawn_witness :
  nth 1 (noise_weights sparse_noise_model) 0%R = 0%R
  /\ Forall (fun o => forall t : tensor Z,
               fst (snd o) = Ok t -> In (Z.of_nat 1) (data t) -> fst o = 0%R)
            (forward_noise_words 1 2 sparse_noise_model).
Proof.
  split; [reflexivity|].
  apply (@zero_weight_never_drawn sparse_noise_model 1 2 1 eq_refl).
Defined.

(** ** Noise weights need not be normalised *)

Lemma sum_list_map_mult (c : R) (w : list R) :
  sum_list (map (Rmult c) w) = (c * sum_list w)%R.
Proof.
  induction w as [|x w IH]; simpl; [lra|]. rewrite IH. lra.
Qed.

Lemma nth_map_mult (c : R) (w : list R) (i : nat) :
  nth i (map (Rmult c) w) 0%R = (c * nth i w 0)%R.
Proof.
  rewrite <- (Rmult_0_r c) at 1. apply map_nth.
Qed.

Lemma categorical_scale (c : R) (w : list R) :
  c <> 0%R -> sum_list w <> 0%R ->
  categorical (map (Rmult c) w) = categorical w.
Proof.
  intros Hc Hs. unfold categorical. rewrite length_map.
  apply tab_ext. intros i Hi.
  rewrite nth_map_mult, sum_list_map_mult. f_equal. field. split; assumption.
Qed.

Lemma draws_scale (c : R) (w : list R) (n : nat) :
  c <> 0%R -> sum_list w <> 0%R ->
  draws (map (Rmult c) w) n = draws w n.
Proof.
  intros Hc Hs. induction n as [|n IH]; [reflexivity|].
  simpl. now rewrite categorical_scale, IH.
Qed.

Lemma valid_weights_scale (c : R) (w : list R) :
  (0 < c)%R -> valid_weights (map (Rmult c) w) = valid_weights w.
Proof.
  intros Hc. unfold valid_weights. rewrite sum_list_map_mult. f_equal.
  - induction w as [|x w IH]; [reflexivity|]. simpl. rewrite IH. f_equal.
    destruct (Rle_dec 0 (c * x)) as [H1|H1], (Rle_dec 0 x) as [H2|H2];
      try reflexivity; exfalso.
    + apply H2. apply Rmult_le_reg_l with (r := c); [assumption|].
      now rewrite Rmult_0_r.
    + apply H1. now apply Rmult_le_pos; [left|].
  - destruct (Rlt_dec 0 (c * sum_list w)) as [H1|H1],
             (Rlt_dec 0 (sum_list w)) as [H2|H2];
      try reflexivity; exfalso.
    + apply H2. apply Rmult_lt_reg_l with (r := c); [assumption|].
      now rewrite Rmult_0_r.
    + apply H1. now apply Rmult_lt_0_compat.
Qed.

Lemma valid_weights_sum (w : list R) :
  valid_weights w = true -> (0 < sum_list w)%R.
Proof.
  unfold valid_weights. intros H. apply andb_prop in H. destruct H as [_ H].
  destruct (Rlt_dec 0 (sum_list w)); [assumption | discriminate].
Qed.

(** X7. Only the proportions of the noise weights matter: multiplying the
    whole noise distribution by a constant [c > 0] changes neither the
    failures nor the values of [forward_noise] nor their probabilities,
    for all arguments of the call. *)
Theorem noise_dist_scale_invariant (self : SkipGramNeg) (w : list R) (c : R)
    (batch_size n_samples : Z) :
  (0 < c)%R ->
  visible (forward_noise batch_size n_samples
             (with_noise_dist self (Some (map (Rmult c) w))))
  = visible (forward_noise batch_size n_samples
               (with_noise_dist self (Some w))).
Proof.
  intros Hc.
  set (s1 := with_noise_dist self (Some (map (Rmult c) w))).
  set (s2 := with_noise_dist self (Some w)).
  assert (Hw1 : noise_weights s1 = map (Rmult c) w) by reflexivity.
  assert (Hw2 : noise_weights s2 = w) by reflexivity.
  assert (Hc1 : too_many_categories (noise_weights s1)
                = too_many_categories w)
    by (rewrite Hw1; unfold too_many_categories; now rewrite length_map).
  destruct (Z.leb_spec (batch_size * n_samples) 0) as [Hk|Hk].
  - rewrite !forward_noise_bad_count by assumption. reflexivity.
  - destruct (too_many_categories w) eqn:Hcat.
    { rewrite !forward_noise_too_many
        by (try assumption; rewrite ?Hc1, ?Hw2; assumption).
      reflexivity. }
    assert (Hcat1 : too_many_categories (noise_weights s1) = false)
      by now rewrite Hc1.
    assert (Hcat2 : too_many_categories (noise_weights s2) = false)
      by now rewrite Hw2.
    destruct (valid_weights w) eqn:Hv.
    + assert (Hs : (0 < sum_list w)%R) by now apply valid_weights_sum.
      rewrite !forward_noise_run
        by (try assumption; rewrite ?Hw1, ?Hw2, ?valid_weights_scale; assumption).
      rewrite Hw1, Hw2, draws_scale by lra.
      unfold visible. rewrite !map_map. reflexivity.
    + rewrite !forward_noise_bad_weights
        by (try assumption; rewrite ?Hw1, ?Hw2, ?valid_weights_scale; assumption).
      reflexivity.
Qed.

Lemma noise_dist_scale_invariant_witness :
  (0 < 4)%R
  /\ visible (forward_noise 1 2
                (with_noise_dist example_model
                   (Some (map (Rmult 4) [1%R; 3%R]))))
     = visible (forward_noise 1 2 example_model).
Proof.
  assert (H : (0 < 4)%R) by lra.
  split; [exact H|].
  apply (@noise_dist_scale_invariant example_model [1%R; 3%R] 4 1 2 H).
Defined.

(** ** Shapes the loss refuses, and one it silently accepts *)

Lemma broadcast_shapes_incompatible (B E B' E' : nat) :
  incompatible B B' \/ incompatible E E' ->
  broadcast_shapes [B; E] [B'; E'] = None.
Proof.
  intros H. unfold broadcast_shapes. simpl.
  destruct (Nat.eqb_spec B B') as [HB|HB];
    destruct (Nat.eqb_spec B 1) as [HB1|HB1];
    destruct (Nat.eqb_spec B' 1) as [HB1'|HB1'];
    destruct (Nat.eqb_spec E E') as [HE|HE];
    destruct (Nat.eqb_spec E 1) as [HE1|HE1];
    destruct (Nat.eqb_spec E' 1) as [HE1'|HE1'];
    try reflexivity; exfalso;
    destruct H as [(H1 & H2 & H3)|(H1 & H2 & H3)]; congruence.
Qed.

(** X9. The loss passes on the library's refusal of inputs whose shapes do
    not fit: input and output vectors whose batch sizes (or embedding sizes)
    differ and are not 1 raise a shape error in the product; noise vectors
    whose batch size or embedding size differs from that of the input
    vectors raise a shape error in [bmm]; and unbatched vectors of shape
    (E) raise a dimension error in the sum over dimension 1. *)
Theorem forward_refuses_misfit_shapes (St : Type) (s : St)
    (iv ov nv : tensor R) (B E B' E' n : nat) :
  (shape iv = [B; E] -> shape ov = [B'; E'] ->
   incompatible B B' \/ incompatible E E' ->
   forward iv ov nv s = dret (Err ShapeMismatch, s))
  /\ (shape iv = [B; E] -> shape ov = [B; E] ->
      wf_tensor iv -> wf_tensor ov ->
      shape nv = [B'; n; E'] -> B' <> B \/ E' <> E ->
      forward iv ov nv s = dret (Err ShapeMismatch, s))
  /\ (shape iv = [E] -> shape ov = [E] ->
      wf_tensor iv -> wf_tensor ov ->
      forward iv ov nv s = dret (Err DimOutOfRange, s)).
Proof.
  unfold forward, lift. repeat split.
  - intros Hiv Hov Hinc. do 2 f_equal.
    unfold loss_of, pos_scores, torch_mul, broadcast_op.
    rewrite Hiv, Hov, broadcast_shapes_incompatible by assumption.
    reflexivity.
  - intros Hiv Hov Wiv Wov Hnv Hne. do 2 f_equal.
    unfold loss_of.
    rewrite (pos_scores_value Hiv Hov Wiv Wov). unfold rbind at 1.
    unfold neg_scores, unsqueeze, torch_bmm, rbind.
    rewrite Hiv. simpl. rewrite Hnv.
    replace ((B' =? B) && (E' =? E)) with false; [reflexivity|].
    symmetry. apply andb_false_iff.
    destruct Hne as [H|H]; [left | right]; now apply Nat.eqb_neq.
  - intros Hiv Hov Wiv Wov. do 2 f_equal.
    unfold loss_of, pos_scores, torch_mul.
    rewrite broadcast_op_same by (assumption || congruence).
    unfold rbind at 2. unfold torch_sum. rewrite Hiv. reflexivity.
Qed.

Lemma forward_refuses_misfit_shapes_witness :
  (shape example_input = [2; 2] /\ shape example_output = [2; 2]
   /\ wf_tensor example_input /\ wf_tensor example_output
   /\ shape (mkTensor [3; 1; 2] (data example_noise ++ [5%R; 6%R]))
      = [3; 1; 2]
   /\ (3 <> 2 \/ 2 <> 2))
  /\ forward example_input example_output
       (mkTensor [3; 1; 2] (data example_noise ++ [5%R; 6%R])) tt
     = dret (Err ShapeMismatch, tt).
Proof.
  assert (H : 3 <> 2 \/ 2 <> 2) by (left; lia).
  split; [repeat split; exact H|].
  destruct (@forward_refuses_misfit_shapes unit tt example_input
              example_output
              (mkTensor [3; 1; 2] (data example_noise ++ [5%R; 6%R]))
              2 2 3 2 1) as (_ & H2 & _).
  exact (H2 eq_refl eq_refl eq_refl eq_refl eq_refl H).
Defined.

Lemma expand_cons {A} (ds dt : nat) (s t : list nat) (d : list A) :
  expand (ds :: s) (dt :: t) d
  = if ds =? dt
    then flat_map (fun k => expand s t (chunk k (numel_of s) d)) (seq 0 ds)
    else concat (repeat (expand s t d) dt).
Proof. reflexivity. Qed.

Lemma expand_row_to_batch {A} (B E : nat) (d : list A) :
  length d = E ->
  expand [1; E] [B; E] d = concat (repeat d B).
Proof.
  intros Hd.
  assert (Hn : length d = numel_of [E]) by (simpl; lia).
  rewrite expand_cons.
  destruct (Nat.eqb_spec 1 B) as [<-|HB].
  - cbn [seq flat_map repeat concat]. rewrite !app_nil_r.
    assert (Hc : chunk 0 (numel_of [E]) d = d).
    { unfold chunk. cbn [Nat.mul skipn]. apply firstn_all2. lia. }
    rewrite Hc. now apply expand_same.
  - now rewrite expand_same.
Qed.

Lemma concat_repeat_length {A} (d : list A) (B : nat) :
  length (concat (repeat d B)) = B * length d.
Proof.
  induction B as [|B IH]; [reflexivity|].
  simpl. rewrite length_app, IH. reflexivity.
Qed.

Lemma broadcast_shapes_row (B E : nat) :
  broadcast_shapes [B; E] [1; E] = Some [B; E].
Proof.
  unfold broadcast_shapes. simpl. rewrite Nat.eqb_refl.
  destruct (Nat.eqb_spec B 1) as [->|HB]; reflexivity.
Qed.

Lemma flat_map_constant_concat {A} (d : list A) (B : nat) :
  flat_map (fun _ : nat => d) (seq 0 B) = concat (repeat d B).
Proof.
  generalize 0. induction B as [|B IH]; intros a; [reflexivity|].
  simpl. now rewrite IH.
Qed.

(** With output vectors of shape (1, E) the program computes what it
    computes on the batch in which the one output vector is repeated. *)
Lemma loss_of_single_output (B E : nat) (iv ov nv : tensor R) :
  shape iv = [B; E] -> shape ov = [1; E] ->
  wf_tensor iv -> wf_tensor ov ->
  loss_of iv ov nv
  = loss_of iv (mkTensor [B; E] (concat (repeat (data ov) B))) nv.
Proof.
  intros Hiv Hov Wiv Wov.
  assert (Hlo : length (data ov) = E)
    by (red in Wov; rewrite Wov, Hov; simpl; lia).
  unfold loss_of, pos_scores. f_equal. f_equal.
  unfold torch_mul.
  rewrite broadcast_op_same with (b := mkTensor [B; E] _);
    [| assumption | assumption
     | red; simpl; rewrite concat_repeat_length, Hlo; lia].
  unfold broadcast_op. rewrite Hiv, Hov, broadcast_shapes_row.
  unfold pad_shape. cbn [length Nat.sub repeat app].
  rewrite expand_same by (red in Wiv; now rewrite Wiv, Hiv).
  rewrite expand_row_to_batch by assumption. reflexivity.
Qed.

(** X10. A single output vector is silently broadcast: with input vectors
    of shape (B, E), output vectors of shape (1, E) and noise vectors of
    shape (B, n, E), the loss raises nothing and returns the closed form of
    the batch in which that one output vector is repeated for every input
    vector, which is also what it returns on that batch. *)
Theorem single_output_vector_is_broadcast (St : Type) (s : St) (B n E : nat)
    (iv ov nv : tensor R) :
  shape iv = [B; E] -> shape ov = [1; E] -> shape nv = [B; n; E] ->
  wf_tensor iv -> wf_tensor ov ->
  forward iv ov nv s
  = dret (Ok (mkTensor []
                [closed_form_loss B n E iv
                   (mkTensor [B; E] (concat (repeat (data ov) B))) nv]), s)
  /\ forward iv (mkTensor [B; E] (concat (repeat (data ov) B))) nv s
     = forward iv ov nv s
  /\ forall b e, b < B -> e < E ->
       at2 E (mkTensor [B; E] (concat (repeat (data ov) B))) b e
       = nth e (data ov) 0%R.
Proof.
  intros Hiv Hov Hnv Wiv Wov.
  assert (Hlo : length (data ov) = E)
    by (red in Wov; rewrite Wov, Hov; simpl; lia).
  assert (Heq := @loss_of_single_output B E iv ov nv Hiv Hov Wiv Wov).
  split; [|split].
  - unfold forward, lift. rewrite Heq.
    rewrite loss_of_value with (B := B) (n := n) (E := E);
      try assumption; try reflexivity.
    red. simpl. rewrite concat_repeat_length, Hlo. lia.
  - unfold forward, lift. now rewrite Heq.
  - intros b e Hb He. unfold at2. simpl.
    rewrite <- flat_map_constant_concat.
    rewrite nth_flat_map_blocks with (g := fun _ : nat => data ov) (x0 := 0);
      try assumption; [reflexivity | intros; assumption
                      | now rewrite length_seq].
Qed.

Lemma single_output_vector_is_broadcast_witness :
  (shape example_input = [2; 2] /\ shape example_single_output = [1; 2]
   /\ shape example_noise = [2; 1; 2]
   /\ wf_tensor example_input /\ wf_tensor example_single_output)
  /\ forward example_input example_single_output example_noise tt
     = dret (Ok (mkTensor []
                   [closed_form_loss 2 1 2 example_input
                      (mkTensor [2; 2] [5%R; 6%R; 5%R; 6%R]) example_noise]),
             tt).
Proof.
  split; [repeat split|].
  apply (@single_output_vector_is_broadcast unit tt 2 1 2 example_input
           example_single_output example_noise
           eq_refl eq_refl eq_refl eq_refl eq_refl).
Defined.

(** ** The two terms as functions of the scores *)

Open Scope R_scope.

Lemma sigmoid_increasing (x y : R) : x < y -> sigmoid x < sigmoid y.
Proof.
  intros Hxy. unfold sigmoid, Rdiv. rewrite !Rmult_1_l.
  pose proof (exp_pos (- x)). pose proof (exp_pos (- y)).
  apply Rinv_lt_contravar.
  - apply Rmult_lt_0_compat; lra.
  - apply Rplus_lt_compat_l. apply exp_increasing. lra.
Qed.

Lemma sigmoid_monotone (x y : R) : x <= y -> sigmoid x <= sigmoid y.
Proof.
  intros [H | ->]; [left; now apply sigmoid_increasing | right; reflexivity].
Qed.

Lemma log_term_monotone (x y : R) :
  x <= y -> ln (sigmoid x + eps) <= ln (sigmoid y + eps).
Proof.
  intros Hxy. pose proof (sigmoid_monotone Hxy) as Hs.
  pose proof (sigmoid_pos x). pose proof eps_pos.
  destruct Hs as [Hs|Hs].
  - left. apply ln_increasing; lra.
  - right. now rewrite Hs.
Qed.

Lemma sigmoid_neg (x : R) : sigmoid (- x) = 1 - sigmoid x.
Proof.
  unfold sigmoid. rewrite Ropp_involutive.
  pose proof (exp_pos x) as H1. pose proof (exp_pos (- x)) as H2.
  assert (H : exp (- x) = / exp x) by apply exp_Ropp.
  rewrite H. field. split; [lra|]. rewrite H in H2.
  assert (0 < exp x * (1 + / exp x)) by (apply Rmult_lt_0_compat; lra).
  rewrite Rmult_plus_distr_l, Rinv_r in H0 by lra. lra.
Qed.

Lemma rsum_monotone (n : nat) (f g : nat -> R) :
  (forall i, (i < n)%nat -> f i <= g i) -> rsum n f <= rsum n g.
Proof.
  induction n as [|n IH]; intros H; simpl; [lra|].
  assert (rsum n f <= rsum n g) by (apply IH; intros; apply H; lia).
  assert (f n <= g n) by (apply H; lia). lra.
Qed.

Close Scope R_scope.

(** X11. The signs of the two terms: when the positive scores grow entry
    by entry, no entry of the positive term of line 139 falls; when the
    noise scores of shape (B, n) grow entry by entry, no entry of the
    negative term of line 140 rises. *)
Theorem terms_follow_the_scores (B n : nat) (ps1 ps2 ns1 ns2 : tensor R) :
  shape ns1 = [B; n] -> shape ns2 = [B; n] ->
  wf_tensor ns1 -> wf_tensor ns2 ->
  Forall2 Rle (data ps1) (data ps2) ->
  (forall i, i < B * n -> (nth i (data ns1) 0 <= nth i (data ns2) 0)%R) ->
  Forall2 Rle (data (pos_loss ps1)) (data (pos_loss ps2))
  /\ exists r1 r2 : tensor R,
       neg_loss ns1 = Ok r1 /\ neg_loss ns2 = Ok r2
       /\ shape r1 = [B] /\ shape r2 = [B]
       /\ forall b, b < B -> (nth b (data r2) 0 <= nth b (data r1) 0)%R.
Proof.
  intros Hs1 Hs2 Hw1 Hw2 Hps Hns. split.
  - unfold pos_loss, torch_log, add_scalar, torch_sigmoid, tmap. simpl.
    rewrite !map_map.
    induction Hps as [|x y l1 l2 Hxy _ IH]; simpl; constructor;
      [now apply log_term_monotone | exact IH].
  - rewrite (neg_loss_entries Hs1 Hw1), (neg_loss_entries Hs2 Hw2).
    eexists. eexists. repeat split. simpl. intros b Hb.
    rewrite !nth_tab by assumption.
    apply rsum_monotone. intros k Hk.
    apply log_term_monotone. apply Ropp_le_contravar. apply Hns. nia.
Qed.

Lemma terms_follow_the_scores_witness :
  (shape (mkTensor [1; 2] [1%R; 2%R]) = [1; 2]
   /\ shape (mkTensor [1; 2] [1%R; 3%R]) = [1; 2]
   /\ wf_tensor (mkTensor [1; 2] [1%R; 2%R])
   /\ wf_tensor (mkTensor [1; 2] [1%R; 3%R])
   /\ Forall2 Rle (data (mkTensor [1] [0%R])) (data (mkTensor [1] [1%R]))
   /\ (forall i, i < 1 * 2 ->
         (nth i [1%R; 2%R] 0 <= nth i [1%R; 3%R] 0)%R))
  /\ Forall2 Rle (data (pos_loss (mkTensor [1] [0%R])))
                 (data (pos_loss (mkTensor [1] [1%R])))
  /\ exists r1 r2 : tensor R,
       neg_loss (mkTensor [1; 2] [1%R; 2%R]) = Ok r1
       /\ neg_loss (mkTensor [1; 2] [1%R; 3%R]) = Ok r2
       /\ shape r1 = [1] /\ shape r2 = [1]
       /\ forall b, b < 1 -> (nth b (data r2) 0 <= nth b (data r1) 0)%R.
Proof.
  assert (H5 : Forall2 Rle (data (mkTensor [1] [0%R]))
                 (data (mkTensor [1] [1%R])))
    by (repeat constructor; simpl; lra).
  assert (H6 : forall i, i < 1 * 2 ->
                 (nth i [1%R; 2%R] 0 <= nth i [1%R; 3%R] 0)%R).
  { intros [|[|i]] Hi; simpl; lra. }
  split; [repeat split; assumption|].
  apply (@terms_follow_the_scores 1 2 (mkTensor [1] [0%R]) (mkTensor [1] [1%R])
           (mkTensor [1; 2] [1%R; 2%R]) (mkTensor [1; 2] [1%R; 3%R])
           eq_refl eq_refl eq_refl eq_refl H5 H6).
Defined.

(** X12. The negative term is the log-probability of "not a context word":
    for noise scores of shape (B, n), entry [b] of [neg_loss] is the sum
    over the [n] noise words of [ln (1 - sigmoid (score) + 1e-10)]. *)
Theorem neg_loss_is_log_one_minus_sigmoid (B n : nat) (ns : tensor R) :
  shape ns = [B; n] -> wf_tensor ns ->
  neg_loss ns
  = Ok (mkTensor [B]
          (tab B (fun b => rsum n (fun k =>
             ln (1 - sigmoid (nth (b * n + k) (data ns) 0) + eps)%R)))).
Proof.
  intros Hs Hw. rewrite (neg_loss_entries Hs Hw). do 2 f_equal.
  apply tab_ext. intros b Hb. apply rsum_ext. intros k Hk.
  now rewrite sigmoid_neg.
Qed.

Lemma neg_loss_is_log_one_minus_sigmoid_witness :
  (shape (mkTensor [1; 2] [1%R; 2%R]) = [1; 2]
   /\ wf_tensor (mkTensor [1; 2] [1%R; 2%R]))
  /\ neg_loss (mkTensor [1; 2] [1%R; 2%R])
     = Ok (mkTensor [1]
             (tab 1 (fun b => rsum 2 (fun k =>
                ln (1 - sigmoid (nth (b * 2 + k) [1%R; 2%R] 0) + eps)%R)))).
Proof.
  split; [repeat split|].
  apply (@neg_loss_is_log_one_minus_sigmoid 1 2 (mkTensor [1; 2] [1%R; 2%R])
           eq_refl eq_refl).
Defined.

(** ** The four operations together *)

Lemma bind_dret_ok {S A B} (m : M S A) (f : A -> M S B) (s : S) (a : A) :
  m s = dret (Ok a, s) -> bind m f s = f a s.
Proof. intros H. unfold bind. rewrite H. now rewrite dbind_dret. Qed.

Lemma at2_lookup (emb : Embedding) (ws : list Z) (sh : list nat) (b e : nat) :
  wf_embedding emb ->
  Forall (fun i => (0 <= i < Z.of_nat (num_embeddings emb))%Z) ws ->
  b < length ws -> e < embedding_dim emb ->
  at2 (embedding_dim emb)
      (mkTensor sh (flat_map (fun i => row emb (Z.to_nat i)) ws)) b e
  = nth e (row emb (Z.to_nat (nth b ws 0%Z))) 0%R.
Proof.
  intros Hwf Hin Hb He. unfold at2. simpl.
  apply nth_flat_map_blocks with (g := fun i => row emb (Z.to_nat i));
    try assumption.
  intros i Hi. apply row_length; [assumption|].
  rewrite Forall_forall in Hin. specialize (Hin i Hi). lia.
Qed.

Lemma at3_lookup (emb : Embedding) (l : list nat) (sh : list nat)
      (n b k e : nat) :
  wf_embedding emb ->
  Forall (fun i => i < num_embeddings emb) l ->
  b * n + k < length l -> e < embedding_dim emb ->
  at3 n (embedding_dim emb) (mkTensor sh (flat_map (row emb) l)) b k e
  = nth e (row emb (nth (b * n + k) l 0)) 0%R.
Proof.
  intros Hwf Hin Hb He. unfold at3. simpl.
  apply nth_flat_map_blocks; try assumption.
  intros i Hi. apply row_length; [assumption|].
  rewrite Forall_forall in Hin. now apply Hin.
Qed.

(** The closed form on looked-up tensors is the objective written on the
    tables. *)
Lemma closed_form_on_rows (self : SkipGramNeg) (B n : nat) (ws cs : list Z)
      (l : list nat) (sh1 sh2 sh3 : list nat) :
  wf_model self ->
  length ws = B -> length cs = B ->
  Forall (fun i => (0 <= i < Z.of_nat (n_vocab self))%Z) ws ->
  Forall (fun i => (0 <= i < Z.of_nat (n_vocab self))%Z) cs ->
  length l = B * n -> Forall (fun i => i < n_vocab self) l ->
  closed_form_loss B n (n_embed self)
    (mkTensor sh1 (flat_map (fun i => row (in_embed self) (Z.to_nat i)) ws))
    (mkTensor sh2 (flat_map (fun i => row (out_embed self) (Z.to_nat i)) cs))
    (mkTensor sh3 (flat_map (row (out_embed self)) l))
  = sg_objective self B n ws cs l.
Proof.
  intros (HVi & HEi & Hwi & HVo & HEo & Hwo) Hws Hcs Hrw Hrc Hl Hrl.
  unfold closed_form_loss, sg_objective. do 2 f_equal.
  apply rsum_ext. intros b Hb.
  unfold closed_form_term, sg_term, row_dot, dot.
  rewrite <- HVi in Hrw. rewrite <- HVo in Hrc, Hrl.
  f_equal.
  - do 3 f_equal. apply rsum_ext. intros e He.
    rewrite <- HEi at 1. rewrite at2_lookup; try assumption; try lia.
    rewrite <- HEo at 1. rewrite at2_lookup; try assumption; try lia.
    reflexivity.
  - apply rsum_ext. intros k Hk. do 4 f_equal.
    apply rsum_ext. intros e He.
    rewrite <- HEo at 1. rewrite at3_lookup; try assumption; try lia; try nia.
    rewrite <- HEi at 1. rewrite at2_lookup; try assumption; try lia.
    reflexivity.
Qed.

(** X13. The operations fit together. For [B >= 1] input words and [B]
    context words in the vocabulary, looking both up, asking
    [forward_noise] for [n_samples >= 1] noise vectors per word and passing
    the three tensors to the loss never fails and leaves the model as it
    was; for every draw [l] of the noise words, with the probability of
    that draw, the value is the skip-gram objective on the two tables:
    minus the mean over [b] of
    [ln (sigmoid (in[w_b] . out[c_b]) + 1e-10)] plus the sum over [k] of
    [ln (sigmoid (- out[l_(b n + k)] . in[w_b]) + 1e-10)]. The noise
    weights are at most 2^24 and form a distribution over the vocabulary. *)
Theorem lookups_noise_and_loss_compose (self : SkipGramNeg)
    (input_words output_words : tensor Z) (B : nat) (n_samples : Z) :
  wf_model self ->
  shape input_words = [B] -> shape output_words = [B] ->
  wf_tensor input_words -> wf_tensor output_words ->
  Forall (fun i => (0 <= i < Z.of_nat (n_vocab self))%Z) (data input_words) ->
  Forall (fun i => (0 <= i < Z.of_nat (n_vocab self))%Z) (data output_words) ->
  1 <= B -> (1 <= n_samples)%Z ->
  (Z.of_nat (length (noise_weights self)) <= max_categories)%Z ->
  Forall (fun x => (0 <= x)%R) (noise_weights self) ->
  (0 < sum_list (noise_weights self))%R ->
  length (noise_weights self) <= n_vocab self ->
  (input_vectors <- forward_input input_words ;;
   output_vectors <- forward_output output_words ;;
   noise_vectors <- forward_noise (Z.of_nat B) n_samples ;;
   forward input_vectors output_vectors noise_vectors)%monad self
  = map (fun pl => (fst pl,
           (Ok (mkTensor []
                  [sg_objective self B (Z.to_nat n_samples)
                     (data input_words) (data output_words) (snd pl)]),
            self)))
        (draws (noise_weights self) (B * Z.to_nat n_samples)).
Proof.
  intros Hwf Hsi Hso Wi Wo Hri Hro HB Hn Hcat Hall Hsum Hlen.
  assert (Hv : valid_weights (noise_weights self) = true)
    by now apply valid_weights_true.
  assert (Hc : too_many_categories (noise_weights self) = false)
    by now apply few_categories.
  assert (Hli : length (data input_words) = B)
    by (red in Wi; rewrite Wi, Hsi; simpl; lia).
  assert (Hlo : length (data output_words) = B)
    by (red in Wo; rewrite Wo, Hso; simpl; lia).
  pose proof Hwf as (HVi & HEi & Hwi & HVo & HEo & Hwo).
  destruct (@embedding_rows (in_embed self) input_words Hwi)
    as (t_in & Hrun_i & Hs_i & Hd_i & Hl_i & _); [now rewrite HVi|].
  destruct (@embedding_rows (out_embed self) output_words Hwo)
    as (t_out & Hrun_o & Hs_o & Hd_o & Hl_o & _); [now rewrite HVo|].
  rewrite Hsi, HEi in Hs_i. rewrite Hso, HEo in Hs_o. simpl in Hs_i, Hs_o.
  rewrite Hli, HEi in Hl_i. rewrite Hlo, HEo in Hl_o.
  rewrite bind_dret_ok with (a := t_in)
    by (rewrite forward_input_run; now rewrite Hrun_i).
  rewrite bind_dret_ok with (a := t_out)
    by (rewrite forward_output_run; now rewrite Hrun_o).
  rewrite bind_map_ok
    with (d := draws (noise_weights self) (B * Z.to_nat n_samples))
         (g := fun l => mkTensor [B; Z.to_nat n_samples; n_embed self]
                                 (flat_map (row (out_embed self)) l))
    by (rewrite forward_noise_valid_run by (assumption || lia);
        now rewrite Nat2Z.id).
  rewrite dbind_ext
    with (g := fun l =>
           dret (Ok (mkTensor []
                  [closed_form_loss B (Z.to_nat n_samples) (n_embed self)
                     t_in t_out
                     (mkTensor [B; Z.to_nat n_samples; n_embed self]
                               (flat_map (row (out_embed self)) l))]), self)).
  - rewrite dbind_dret_r. apply map_ext_in. intros [p l] Hin. simpl.
    apply draws_support in Hin. destruct Hin as [Hl Hr].
    do 5 f_equal.
    destruct t_in as [sh_i d_i], t_out as [sh_o d_o]. simpl in *. subst.
    apply closed_form_on_rows; try assumption; try reflexivity.
    now apply Forall_lt_le with (a := length (noise_weights self)).
  - intros l. unfold forward, lift.
    rewrite loss_of_value
      with (B := B) (n := Z.to_nat n_samples) (E := n_embed self);
      try assumption; try reflexivity.
    + red. rewrite Hl_i, Hs_i. simpl. lia.
    + red. rewrite Hl_o, Hs_o. simpl. lia.
Qed.

Lemma lookups_noise_and_loss_compose_witness :
  (wf_model example_model
   /\ shape example_words = [2] /\ shape example_words = [2]
   /\ wf_tensor example_words /\ wf_tensor example_words
   /\ Forall (fun i => (0 <= i < Z.of_nat (n_vocab example_model))%Z)
             (data example_words)
   /\ 1 <= 2 /\ (1 <= 1)%Z
   /\ (Z.of_nat (length (noise_weights example_model)) <= max_categories)%Z
   /\ Forall (fun x => (0 <= x)%R) (noise_weights example_model)
   /\ (0 < sum_list (noise_weights example_model))%R
   /\ length (noise_weights example_model) <= n_vocab example_model)
  /\ (input_vectors <- forward_input example_words ;;
      output_vectors <- forward_output example_words ;;
      noise_vectors <- forward_noise (Z.of_nat 2) 1 ;;
      forward input_vectors output_vectors noise_vectors)%monad example_model
     = map (fun pl => (fst pl,
              (Ok (mkTensor []
                     [sg_objective example_model 2 1
                        (data example_words) (data example_words) (snd pl)]),
               example_model)))
           (draws (noise_weights example_model) 2).
Proof.
  assert (H0 : wf_model example_model) by (apply init_wf; reflexivity).
  assert (Hin : Forall (fun i => (0 <= i < Z.of_nat (n_vocab example_model))%Z)
                       (data example_words))
    by (repeat constructor; simpl; lia).
  assert (HB : 1 <= 2) by lia.
  assert (Hn : (1 <= 1)%Z) by lia.
  assert (Hc : (Z.of_nat (length (noise_weights example_model))
                <= max_categories)%Z)
    by (unfold max_categories; simpl; lia).
  assert (H3 : Forall (fun x => (0 <= x)%R) (noise_weights example_model))
    by (repeat constructor; lra).
  assert (H4 : (0 < sum_list (noise_weights example_model))%R)
    by (simpl; lra).
  assert (H5 : length (noise_weights example_model) <= n_vocab example_model)
    by (simpl; lia).
  split; [repeat split; assumption|].
  apply (@lookups_noise_and_loss_compose example_model example_words
           example_words 2 1 H0 eq_refl eq_refl eq_refl eq_refl Hin Hin
           HB Hn Hc H3 H4 H5).
Defined.
